(** * Aggregation, diff and prioritisation engine of the accessibility audit tool

    A shallow embedding of
    - [lib/diff/diffRules.js]              (getOccurrenceKey, diffRules)
    - [lib/aggregate/aggregateRules.js]    (aggregateRules)
    - the priority block of the two [process-results] variants
      ([src/unnamed/part_008] and [src/unnamed/part_009])
    - [lib/io/historyDiscovery.js]         (the per-file totals of getHistoryData)

    JS strings are Rocq strings; JS Sets of strings are duplicate-free lists
    kept in insertion order; plain JS objects used as dictionaries are stdpp
    [gmap]s; the mutable rule objects handed to [diffRules] live in an
    explicit heap [gmap loc rule]. *)

From Stdlib Require Import String Ascii ZArith Lia.
From stdpp Require Import base gmap list strings sorting.

Open Scope Z_scope.

(* ================================================================= *)
(** ** JS string helpers *)

(** [s.replace(/\/$/, '')]: drop one trailing slash. *)
Fixpoint strip_trailing_slash (s : string) : string :=
  match s with
  | EmptyString => EmptyString
  | String c EmptyString => if Ascii.eqb c "/"%char then EmptyString else s
  | String c rest => String c (strip_trailing_slash rest)
  end.

(** [s.split('#')[0]]: the part before the first ['#']. *)
Fixpoint before_hash (s : string) : string :=
  match s with
  | EmptyString => EmptyString
  | String c rest => if Ascii.eqb c "#"%char then EmptyString else String c (before_hash rest)
  end.

(** Does the string contain a ['#']? *)
Fixpoint has_hash (s : string) : bool :=
  match s with
  | EmptyString => false
  | String c rest => Ascii.eqb c "#"%char || has_hash rest
  end.

(** [arr.join(sep)]. *)
Definition js_join (sep : string) (l : list string) : string := String.concat sep l.

(** [set.has(x)] on a set of strings. *)
Definition mem (x : string) (l : list string) : bool :=
  existsb (String.eqb x) l.

(** [new Set(l)] as its iteration order: first occurrences kept. *)
Fixpoint dedup_aux (seen : list string) (l : list string) : list string :=
  match l with
  | [] => []
  | x :: l' => if mem x seen then dedup_aux seen l' else x :: dedup_aux (x :: seen) l'
  end.

Definition dedup (l : list string) : list string := dedup_aux [] l.

(* ================================================================= *)
(** ** Data model *)

(** An occurrence's [target]: an array of selector segments (fresh axe
    result) or a string already joined (loaded from a previous JSON). *)
Inductive target_t :=
| TArr (segs : list string)
| TStr (s : string).

(** An occurrence object; [None] marks a field the object does not carry. *)
Record occ := mkOcc {
  o_page : string;
  o_html : string;
  o_target : target_t;
  o_isNewOccurrence : option bool;
  o_isNewPage : option bool
}.

(** [rule.diff]; [newPages] is a Set of pages. *)
Record rdiff := mkDiff {
  d_new : nat;
  d_resolved : nat;
  d_unchanged : nat;
  d_newPages : list string
}.

(** A rule object as [diffRules] sees it (current or from the previous
    snapshot).  The descriptive metadata fields that no computation here
    reads (description, helpUrl, tags, ...) are left out. *)
Record rule := mkRule {
  r_id : string;
  r_impact : option string;
  r_occurrences : list occ;
  r_diff : option rdiff;
  r_isNewRule : option bool
}.

(* ================================================================= *)
(** ** getOccurrenceKey *)

(** [Array.isArray(node.target) ? node.target.join(' > ') : node.target] *)
Definition selector (t : target_t) : string :=
  match t with
  | TArr segs => js_join " > " segs
  | TStr s => s
  end.

(** [page.replace(/\/$/, '').split('#')[0]] *)
Definition cleanPage (page : string) : string :=
  before_hash (strip_trailing_slash page).

Definition getOccurrenceKey (page ruleId : string) (node : occ) : string :=
  (cleanPage page ++ "|" ++ ruleId ++ "|" ++ selector (o_target node))%string.

(* ================================================================= *)
(** ** diffRules *)

(** Locations of the rule objects in the JS heap. *)
Abbreviation loc := nat.

(** [{ newViolations, resolvedViolations, unchanged }] *)
Record totals := mkTotals {
  newViolations : nat;
  resolvedViolations : nat;
  unchanged : nat
}.

(** An entry of [fullyResolvedRules]. *)
Record resolved_rec := mkResolved {
  fr_id : string;
  fr_friendlyName : string;
  fr_impact : option string
}.

Record diff_result := mkResult {
  res_rules : list loc;
  res_diffTotals : totals;
  res_fullyResolvedRules : list resolved_rec
}.

(** The three indexes built from the previous audit:
    [prevRuleIds] (a Set), [prevPagesByRule] and [prevOccurrencesByRule]
    (plain objects keyed by rule id, later entries overwrite earlier ones). *)
Record prev_index := mkIndex {
  prevRuleIds : list string;
  prevPagesByRule : gmap string (list string);
  prevOccurrencesByRule : gmap string (list string)
}.

Definition empty_index : prev_index := mkIndex [] ∅ ∅.

(** [rule.occurrences.map(o => o.page.replace(/\/$/, ''))] *)
Definition rule_pages (r : rule) : list string :=
  map (fun o => strip_trailing_slash (o_page o)) (r_occurrences r).

(** [rule.occurrences.map(o => getOccurrenceKey(o.page, rule.id, o))] *)
Definition rule_keys (r : rule) : list string :=
  map (fun o => getOccurrenceKey (o_page o) (r_id r) o) (r_occurrences r).

(** The key of an occurrence only reads its page and target. *)
Definition occ_pair (o : occ) : string * string := (o_page o, selector (o_target o)).

Definition key_of (ruleId : string) (pr : string * string) : string :=
  (cleanPage (fst pr) ++ "|" ++ ruleId ++ "|" ++ snd pr)%string.

(** The body of [prevAudit.rules.forEach(rule => ...)]. *)
Definition index_prev_rule (ix : prev_index) (p : rule) : prev_index :=
  mkIndex
    (if mem (r_id p) (prevRuleIds ix) then prevRuleIds ix else prevRuleIds ix ++ [r_id p])
    (<[r_id p := dedup (rule_pages p)]> (prevPagesByRule ix))
    (<[r_id p := dedup (rule_keys p)]> (prevOccurrencesByRule ix)).

Definition build_index (prevAudit : option (list rule)) : prev_index :=
  match prevAudit with
  | Some prules => fold_left index_prev_rule prules empty_index
  | None => empty_index
  end.

(** The body of [rules.forEach(rule => ...)] on one rule object: the
    annotated object and the three counts added to [diffTotals]. *)
Definition annotate_rule (prevAudit : option (list rule)) (ix : prev_index) (r : rule)
    : rule * (nat * nat * nat) :=
  let present := bool_decide (is_Some prevAudit) in
  let currentKeys := rule_keys r in
  let prevSet := default [] (prevOccurrencesByRule ix !! r_id r) in
  let newCount :=
    if present then length (List.filter (fun x => negb (mem x prevSet)) (dedup currentKeys)) else 0%nat in
  let resolvedCount :=
    if present then length (List.filter (fun x => negb (mem x (dedup currentKeys))) prevSet) else 0%nat in
  let unchangedCount :=
    if present then length (List.filter (fun x => mem x prevSet) (dedup currentKeys))
    else length currentKeys in
  let newPages :=
    match prevAudit, prevPagesByRule ix !! r_id r with
    | Some _, Some prevPages => List.filter (fun p => negb (mem p prevPages)) (dedup (rule_pages r))
    | _, _ => []
    end in
  let isNewRule := if present then negb (mem (r_id r) (prevRuleIds ix)) else false in
  let occs :=
    map (fun '(o, key) =>
           mkOcc (o_page o) (o_html o) (o_target o)
                 (Some (if present then negb (mem key prevSet) else false))
                 (Some (if present then mem (strip_trailing_slash (o_page o)) newPages else false)))
        (combine (r_occurrences r) currentKeys) in
  (mkRule (r_id r) (r_impact r) occs
          (Some (mkDiff newCount resolvedCount unchangedCount newPages))
          (Some isNewRule),
   (newCount, resolvedCount, unchangedCount)).

Definition add_counts (t : totals) (c : nat * nat * nat) : totals :=
  let '(n, rs, u) := c in
  mkTotals (newViolations t + n) (resolvedViolations t + rs) (unchanged t + u).

(** [rules.forEach]: each rule object is read from the heap, annotated and
    written back in place.  Reading a missing object is a TypeError. *)
Fixpoint diff_loop (prevAudit : option (list rule)) (ix : prev_index)
    (h : gmap loc rule) (ls : list loc) (tot : totals) : option (gmap loc rule * totals) :=
  match ls with
  | [] => Some (h, tot)
  | l :: ls' =>
      match h !! l with
      | None => None
      | Some r =>
          let '(r', c) := annotate_rule prevAudit ix r in
          diff_loop prevAudit ix (<[l := r']> h) ls' (add_counts tot c)
      end
  end.

(** [friendlyNames[prevRule.id] || prevRule.id] *)
Definition friendly (friendlyNames : string -> option string) (id : string) : string :=
  match friendlyNames id with
  | Some s => if String.eqb s "" then id else s
  | None => id
  end.

(** [rules.map(rule => rule.id)] read in the heap after the loop. *)
Definition heap_ids (h : gmap loc rule) (ls : list loc) : list string :=
  map (fun l => match h !! l with Some r => r_id r | None => ""%string end) ls.

Definition fully_resolved (friendlyNames : string -> option string)
    (prevAudit : option (list rule)) (currentRuleIds : list string) : list resolved_rec :=
  match prevAudit with
  | Some prules =>
      map (fun p => mkResolved (r_id p) (friendly friendlyNames (r_id p)) (r_impact p))
          (List.filter (fun p => negb (mem (r_id p) currentRuleIds)) prules)
  | None => []
  end.

(** [diffRules(rules, resultsDir, friendlyNames, prevAuditFileName)].
    [prevAudit] is the outcome of reading the previous audit file: [None]
    when the file is absent or does not parse (the [catch] branch). *)
Definition diffRules (h : gmap loc rule) (rules : list loc)
    (friendlyNames : string -> option string) (prevAudit : option (list rule))
    : option (gmap loc rule * diff_result) :=
  let ix := build_index prevAudit in
  match diff_loop prevAudit ix h rules (mkTotals 0 0 0) with
  | None => None
  | Some (h', tot) =>
      Some (h', mkResult rules tot
                  (fully_resolved friendlyNames prevAudit (heap_ids h' rules)))
  end.

(* ================================================================= *)
(** ** aggregateRules *)

(** A matched element of a raw axe result. *)
Record node := mkNode { n_html : string; n_target : list string }.

(** A raw violation: [{ id, impact, nodes, ... }]. *)
Record violation := mkViolation {
  v_id : string;
  v_impact : option string;
  v_nodes : list node
}.

(** A raw per-page record; [p_violations = None] is a page that carries
    only an error marker ([{ url, error }]). *)
Record page_result := mkPage {
  p_url : string;
  p_violations : option (list violation)
}.

(** A [rulesMap] entry: [{ ...rule, occurrences, uniquePages }]. *)
Record entry := mkEntry {
  e_id : string;
  e_impact : option string;
  e_occurrences : list occ;
  e_uniquePages : list string
}.

(** An aggregated rule before the final map strips [uniquePages]. *)
Record agg_rule := mkAgg {
  a_id : string;
  a_impact : option string;
  a_occurrences : list occ;
  a_uniquePages : list string;
  a_pagesAffected : nat;
  a_density : Z;          (** in hundredths: [parseFloat(x.toFixed(2))] times 100 *)
  a_isSystemic : bool
}.

(** A rule as returned by [aggregateRules]. *)
Record out_rule := mkOut {
  ar_id : string;
  ar_impact : option string;
  ar_occurrences : list occ;
  ar_pagesAffected : nat;
  ar_density : Z;
  ar_isSystemic : bool
}.

Record agg_output := mkAggOut {
  ao_rules : list out_rule;
  ao_topRulesNames : list string;
  ao_violationPercentage : Z;
  ao_pagePercentage : Z
}.

(** [set.add(x)] *)
Definition set_add (x : string) (s : list string) : list string :=
  if mem x s then s else s ++ [x].

(** [Math.round((a / b) * 100)] for [b > 0], rounding half up.  The
    rational value is rounded; the double computed by JS agrees with it
    except on inputs whose exact quotient lies next to a half. *)
Definition round_pct (a b : nat) : Z :=
  (200 * Z.of_nat a + Z.of_nat b) / (2 * Z.of_nat b).

(** [t > 0 ? p / t : 0] followed by [parseFloat(x.toFixed(2))], in
    hundredths: the nearest hundredth, the larger one on a tie (the
    [toFixed] rule), computed on the rational [p / t]. *)
Definition density_of (p t : nat) : Z :=
  if (0 <? t)%nat then (200 * Z.of_nat p + Z.of_nat t) / (2 * Z.of_nat t) else 0.

(** Stable insertion sort with a JS comparator: [Array.prototype.sort] is
    stable, so for a consistent comparator any stable sort agrees with it. *)
Section Sort.
Context {A : Type} (cmp : A -> A -> Z).

Fixpoint insert_by (x : A) (l : list A) : list A :=
  match l with
  | [] => [x]
  | y :: l' => if cmp x y <? 0 then x :: l else y :: insert_by x l'
  end.

Definition sort_by (l : list A) : list A :=
  fold_left (fun acc x => insert_by x acc) l [].
End Sort.

(** [IMPACT_ORDER[impact] ?? 99] *)
Definition impact_rank (i : option string) : Z :=
  match i with
  | Some "critical"%string => 0
  | Some "serious"%string => 1
  | Some "moderate"%string => 2
  | Some "minor"%string => 3
  | _ => 99
  end.

(** The comparator of step 3. *)
Definition agg_cmp (a b : agg_rule) : Z :=
  let rankA := impact_rank (a_impact a) in
  let rankB := impact_rank (a_impact b) in
  if negb (rankA =? rankB) then rankA - rankB
  else if negb (Bool.eqb (a_isSystemic a) (a_isSystemic b)) then
    (if a_isSystemic a then -1 else 1)
  else Z.of_nat (length (a_occurrences b)) - Z.of_nat (length (a_occurrences a)).

Definition strip_agg (r : agg_rule) : out_rule :=
  mkOut (a_id r) (a_impact r) (a_occurrences r) (a_pagesAffected r) (a_density r) (a_isSystemic r).

Section Aggregate.
(** The [stripChildren] option passed by the caller. *)
Variable stripChildren : string -> string.

(** One node of one violation: [{ page, html, target }]. *)
Definition node_occ (pageUrl : string) (n : node) : occ :=
  mkOcc pageUrl (stripChildren (n_html n)) (TStr (js_join " > " (n_target n))) None None.

(** The body of [violations.forEach(rule => ...)]: create the entry if
    needed (insertion order of the Map), add the page, push one
    occurrence per node and count them. *)
Definition add_violation (pageUrl : string) (acc : list entry * nat) (v : violation)
    : list entry * nat :=
  let '(m, cnt) := acc in
  let m1 :=
    if existsb (fun e => String.eqb (e_id e) (v_id v)) m then m
    else m ++ [mkEntry (v_id v) (v_impact v) [] []] in
  (map (fun e =>
          if String.eqb (e_id e) (v_id v) then
            mkEntry (e_id e) (e_impact e)
                    (e_occurrences e ++ map (node_occ pageUrl) (v_nodes v))
                    (set_add pageUrl (e_uniquePages e))
          else e) m1,
   (cnt + length (v_nodes v))%nat).

(** The body of [rawResults.forEach(pageResult => ...)];
    [pageResult.violations || []]. *)
Definition add_page (acc : list entry * nat) (pr : page_result) : list entry * nat :=
  fold_left (add_violation (p_url pr)) (default [] (p_violations pr)) acc.

(** [rulesMap] and [totalOccurrencesCount] after step 1. *)
Definition collect (rawResults : list page_result) : list entry * nat :=
  fold_left add_page rawResults ([], 0%nat).

(** Step 2 on one entry. *)
Definition finalize (totalPagesCount : nat) (e : entry) : agg_rule :=
  let pagesAffectedCount := length (e_uniquePages e) in
  mkAgg (e_id e) (e_impact e) (e_occurrences e) (e_uniquePages e)
        pagesAffectedCount
        (density_of pagesAffectedCount totalPagesCount)
        ((1 <? totalPagesCount)%nat && (pagesAffectedCount =? totalPagesCount)%nat).

Definition aggregateRules (rawResults : list page_result) : agg_output :=
  let '(rulesMap, totalOccurrencesCount) := collect rawResults in
  let totalPagesCount := length rawResults in
  let allRules := sort_by agg_cmp (map (finalize totalPagesCount) rulesMap) in
  let topRules := firstn 5 allRules in
  let priorityOccurrencesCount := sum_list_with (fun r => length (a_occurrences r)) topRules in
  let priorityPagesSet := fold_left (fun s r => fold_left (fun s p => set_add p s) (a_uniquePages r) s) topRules [] in
  mkAggOut (map strip_agg allRules)
           (map a_id topRules)
           (if (0 <? totalOccurrencesCount)%nat
            then round_pct priorityOccurrencesCount totalOccurrencesCount else 0)
           (if (0 <? totalPagesCount)%nat
            then round_pct (length priorityPagesSet) totalPagesCount else 0).
End Aggregate.

(* ================================================================= *)
(** ** Priority ranking of [process-results] (part_008 and part_009) *)

(** A JS number as far as these computations reach: a finite integer,
    [NaN], or [Infinity]. *)
Inductive jsnum :=
| JNum (z : Z)
| JNaN
| JInf.

(** [IMPACT_WEIGHTS[rule.impact]] with
    [{ critical: 10000, serious: 1000, moderate: 100, minor: 10 }];
    [None] is [undefined]. *)
Definition priority_weight (i : option string) : option Z :=
  match i with
  | Some "critical"%string => Some 10000
  | Some "serious"%string => Some 1000
  | Some "moderate"%string => Some 100
  | Some "minor"%string => Some 10
  | _ => None
  end.

(** [new Set(rule.occurrences.map(o => o.page)).size] *)
Definition occ_unique_pages (r : out_rule) : nat :=
  length (dedup (map o_page (ar_occurrences r))).

(** [IMPACT_WEIGHTS[rule.impact] + uniquePages]: [undefined + n] is [NaN]. *)
Definition priorityScore (r : out_rule) : jsnum :=
  match priority_weight (ar_impact r) with
  | Some w => JNum (w + Z.of_nat (occ_unique_pages r))
  | None => JNaN
  end.

(** A rule after the [.map] of the priority block, which sets
    [rule.priorityScore] and [rule.pagesAffected]. *)
Record scored := mkScored {
  s_rule : out_rule;
  s_priorityScore : jsnum
}.

Definition score_rule (r : out_rule) : scored :=
  mkScored (mkOut (ar_id r) (ar_impact r) (ar_occurrences r) (occ_unique_pages r)
                  (ar_density r) (ar_isSystemic r))
           (priorityScore r).

(** [(a, b) => b.priorityScore - a.priorityScore]; a [NaN] result is
    taken as [+0] by the sort (SortCompare). *)
Definition priority_cmp (a b : scored) : Z :=
  match s_priorityScore b, s_priorityScore a with
  | JNum x, JNum y => x - y
  | _, _ => 0
  end.

Definition priorityRules (rules : list out_rule) : list scored :=
  match rules with
  | [] => []
  | _ => firstn 5 (sort_by priority_cmp (map score_rule rules))
  end.

Record prioritySummary := mkPrioritySummary {
  percentOfViolations : jsnum;
  percentOfPages : jsnum
}.

(** [priorityOccurrencesCount] and [priorityPages] of the priority rules. *)
Definition priority_occurrences (pr : list scored) : nat :=
  sum_list_with (fun s => length (ar_occurrences (s_rule s))) pr.

Definition priority_pages (pr : list scored) : list string :=
  fold_left (fun acc s => fold_left (fun acc o => set_add (o_page o) acc) (ar_occurrences (s_rule s)) acc) pr [].

(** [rules.reduce((acc, r) => acc + r.occurrences.length, 0)] *)
Definition total_occurrences (rules : list out_rule) : nat :=
  sum_list_with (fun r => length (ar_occurrences r)) rules.

(** part_008: both percentages guarded. *)
Definition prioritySummary_008 (rules : list out_rule) (totalPagesAudited : nat) : prioritySummary :=
  let pr := priorityRules rules in
  let totalOccurrencesOverall := total_occurrences rules in
  mkPrioritySummary
    (JNum (if (0 <? totalOccurrencesOverall)%nat
           then round_pct (priority_occurrences pr) totalOccurrencesOverall else 0))
    (JNum (if (0 <? totalPagesAudited)%nat
           then round_pct (length (priority_pages pr)) totalPagesAudited else 0)).

(** [Math.round((a / b) * 100)] with no guard: [0/0] is [NaN], [a/0] is
    [Infinity] for [a > 0], and [Math.round] keeps both. *)
Definition js_round_pct (a b : nat) : jsnum :=
  if (b =? 0)%nat then (if (a =? 0)%nat then JNaN else JInf) else JNum (round_pct a b).

(** part_009: no guard. *)
Definition prioritySummary_009 (rules : list out_rule) (totalPagesAudited : nat) : prioritySummary :=
  let pr := priorityRules rules in
  let totalOccurrencesOverall := total_occurrences rules in
  mkPrioritySummary
    (js_round_pct (priority_occurrences pr) totalOccurrencesOverall)
    (js_round_pct (length (priority_pages pr)) totalPagesAudited).

(** The pipeline of both variants up to the summary: [aggregateRules]
    then [enrichRules], which keeps id, impact and occurrences, and
    [totalPagesAudited = rawResults.length]. *)
Definition run_summary_008 (stripChildren : string -> string) (raw : list page_result) :=
  prioritySummary_008 (ao_rules (aggregateRules stripChildren raw)) (length raw).

Definition run_summary_009 (stripChildren : string -> string) (raw : list page_result) :=
  prioritySummary_009 (ao_rules (aggregateRules stripChildren raw)) (length raw).

(* ================================================================= *)
(** ** getHistoryData: the totals of one history file *)

(** A violation of the legacy raw array shape ([v.impact], [v.nodes]). *)
Record hist_violation := mkHV { hv_impact : option string; hv_nodes : option (list node) }.

(** A page of the legacy raw array shape ([page.violations]). *)
Record hist_page := mkHP { hp_violations : option (list hist_violation) }.

(** A rule of the processed snapshot shape ([r.impact], [r.occurrences]). *)
Record hist_rule := mkHR { hr_impact : option string; hr_occurrences : option (list occ) }.

(** The parsed JSON of a history file: an array, or an object with the
    fields read by [getHistoryData]. *)
Inductive hist_data :=
| HArray (pages : list hist_page)
| HObject (rules : option (list hist_rule)) (pagesAudited pageCount : option nat)
          (urls : option (list string)).

(** [IMPACT_WEIGHTS[impact] || 1] with
    [{ critical: 10, serious: 5, moderate: 2, minor: 1 }]. *)
Definition history_weight (i : option string) : nat :=
  match i with
  | Some "critical"%string => 10
  | Some "serious"%string => 5
  | Some "moderate"%string => 2
  | Some "minor"%string => 1
  | _ => 1
  end%nat.

Record history_totals := mkHT {
  violationCount : nat;
  totalPenalty : nat;
  ht_pageCount : nat
}.

(** [a || b] on counts (0 is falsy). *)
Definition or_nat (a : option nat) (b : nat) : nat :=
  match a with Some (S _ as n) => n | _ => b end.

Definition hist_step (acc : nat * nat) (count weight : nat) : nat * nat :=
  let '(totalViolations, weightedTotal) := acc in
  (totalViolations + count, weightedTotal + count * weight)%nat.

Definition history_totals_of (data : hist_data) : history_totals :=
  match data with
  | HArray pages =>
      let '(tv, wt) :=
        fold_left (fun acc page =>
          fold_left (fun acc v =>
              hist_step acc (length (default [] (hv_nodes v))) (history_weight (hv_impact v)))
            (default [] (hp_violations page)) acc) pages (0, 0)%nat in
      mkHT tv wt (length pages)
  | HObject (Some rules) pa pc urls =>
      let '(tv, wt) :=
        fold_left (fun acc r =>
            hist_step acc (length (default [] (hr_occurrences r))) (history_weight (hr_impact r)))
          rules (0, 0)%nat in
      mkHT tv wt (or_nat pa (or_nat pc (match urls with Some u => length u | None => 0%nat end)))
  | HObject None _ _ _ => mkHT 0 0 0
  end.

(* ================================================================= *)
(** ** lib/diff/diffRules.js: stripChildren and escapeHtml *)

(** [s.replace(/c/g, r)] for a one-character pattern [c]. *)
Fixpoint replace_all (c : ascii) (r s : string) : string :=
  match s with
  | EmptyString => EmptyString
  | String x rest =>
      if Ascii.eqb x c then (r ++ replace_all c r rest)%string
      else String x (replace_all c r rest)
  end.

(** The double and the single quote. *)
Definition quote_char : ascii := "034"%char.
Definition apos_char : ascii := "039"%char.

(** [escapeHtml(str)]: [None] is [null] or [undefined] ([str == null]);
    string arguments only ([String(str)] of other values is not modelled). *)
Definition escapeHtml (str : option string) : string :=
  match str with
  | None => EmptyString
  | Some s =>
      replace_all apos_char "&#39;"
        (replace_all quote_char "&quot;"
           (replace_all ">" "&gt;"
              (replace_all "<" "&lt;"
                 (replace_all "&" "&amp;" s))))
  end.

(** After the leading ['<'] of [/^<[^>]+>/]: the characters up to and
    including the first ['>'], if there is one. *)
Fixpoint scan_tag (s : string) : option string :=
  match s with
  | EmptyString => None
  | String c rest =>
      if Ascii.eqb c ">" then Some (String c EmptyString)
      else option_map (String c) (scan_tag rest)
  end.

(** [html.match(/^<[^>]+>/)]: ['<'], at least one character other than
    ['>'], then everything up to the first ['>']. *)
Definition match_open_tag (s : string) : option string :=
  match s with
  | String c (String d rest) =>
      if Ascii.eqb c "<" && negb (Ascii.eqb d ">")
      then option_map (fun t => String c (String d t)) (scan_tag rest)
      else None
  | _ => None
  end.

(** [stripChildren(html)]: [None] is a value that is not a string. *)
Definition stripChildren (html : option string) : string :=
  match html with
  | None => EmptyString
  | Some h =>
      match h with
      | EmptyString => EmptyString
      | _ => match match_open_tag h with Some m => m | None => h end
      end
  end.

(* ================================================================= *)
(** ** lib/io/auditFiles.js: the site slug of createAuditFiles *)

(** [s.replace(/^https?:\/\//, '')] *)
Definition drop_scheme (s : string) : string :=
  if String.prefix "https://" s then substring 8 (String.length s - 8) s
  else if String.prefix "http://" s then substring 7 (String.length s - 7) s
  else s.

(** A character of the class [\w]: [[A-Za-z0-9_]]. *)
Definition is_word_char (c : ascii) : bool :=
  let n := nat_of_ascii c in
  (((48 <=? n) && (n <=? 57)) || ((65 <=? n) && (n <=? 90)) ||
  ((97 <=? n) && (n <=? 122)) || (n =? 95))%nat.

(** [s.replace(/[^\w-]/g, '_')], on one-byte characters. *)
Fixpoint slug_chars (s : string) : string :=
  match s with
  | EmptyString => EmptyString
  | String c rest =>
      String (if is_word_char c || Ascii.eqb c "-" then c else "_") (slug_chars rest)
  end.

(** [siteSlug] of [createAuditFiles]. *)
Definition siteSlug (siteUrl : string) : string :=
  slug_chars (strip_trailing_slash (drop_scheme siteUrl)).

(* ================================================================= *)
(** ** lib/enrich/enrichRules.js: getWcagLevel *)

(** [getWcagLevel(tags)]: [None] is a value that is not an array
    ([!Array.isArray(tags)]). *)
Definition getWcagLevel (tags : option (list string)) : string :=
  match tags with
  | None => "Best Practice"
  | Some ts =>
      if existsb (fun t => mem t ["wcag2aaa"; "wcag21aaa"; "wcag22aaa"]) ts then "AAA"
      else if existsb (fun t => mem t ["wcag2aa"; "wcag21aa"; "wcag22aa"]) ts then "AA"
      else if existsb (fun t => mem t ["wcag2a"; "wcag21a"; "wcag22a"]) ts then "A"
      else "Best Practice"
  end%string.

(* ================================================================= *)
(** ** getHistoryData: the list of history entries *)

(** One entry returned by the [.map] over the files; [he_timestamp] is
    [new Date(dateRaw).getTime()], [None] when it is [NaN]. *)
Record hist_entry := mkHistEntry {
  he_date : string;
  he_totals : history_totals;
  he_timestamp : option Z
}.

Definition HISTORY_LIMIT : nat := 10.

(** [(a, b) => a.timestamp - b.timestamp]; a [NaN] result counts as [+0]. *)
Definition hist_cmp (a b : hist_entry) : Z :=
  match he_timestamp a, he_timestamp b with
  | Some x, Some y => x - y
  | _, _ => 0
  end.

(** [.filter(Boolean)] on the results of the [.map] ([None] for a
    skipped, corrupted file). *)
Definition filter_present (entries : list (option hist_entry)) : list hist_entry :=
  flat_map (fun o => match o with Some e => [e] | None => [] end) entries.

(** [.filter(Boolean).sort(hist_cmp).slice(-HISTORY_LIMIT)] *)
Definition select_history (entries : list (option hist_entry)) : list hist_entry :=
  let sorted := sort_by hist_cmp (filter_present entries) in
  skipn (length sorted - HISTORY_LIMIT) sorted.

(* ================================================================= *)
(** ** Orders and totals read off the code *)

(** The order step 3 of [aggregateRules] puts rules in: impact rank
    ascending, then systemic rules first, then more occurrences first. *)
Definition agg_order (a b : out_rule) : Prop :=
  impact_rank (ar_impact a) <= impact_rank (ar_impact b) /\
  (impact_rank (ar_impact a) = impact_rank (ar_impact b) ->
     (ar_isSystemic b = true -> ar_isSystemic a = true) /\
     (ar_isSystemic a = ar_isSystemic b ->
        (length (ar_occurrences b) <= length (ar_occurrences a))%nat)).

(** [a.priorityScore >= b.priorityScore] for two numeric scores. *)
Definition score_ge (a b : scored) : Prop :=
  exists x y, s_priorityScore a = JNum x /\ s_priorityScore b = JNum y /\ y <= x.

(** [a.timestamp <= b.timestamp] for two valid timestamps. *)
Definition ts_le (a b : hist_entry) : Prop :=
  exists x y, he_timestamp a = Some x /\ he_timestamp b = Some y /\ x <= y.

(** The number of matched elements in the raw input. *)
Definition raw_nodes (raw : list page_result) : nat :=
  sum_list_with (fun pr => sum_list_with (fun v => length (v_nodes v)) (default [] (p_violations pr))) raw.

(** The five replacements of [escapeHtml] done in one pass, one
    character at a time. *)
Definition esc_char (x : ascii) : string :=
  if Ascii.eqb x "&" then "&amp;"
  else if Ascii.eqb x "<" then "&lt;"
  else if Ascii.eqb x ">" then "&gt;"
  else if Ascii.eqb x quote_char then "&quot;"
  else if Ascii.eqb x apos_char then "&#39;"
  else String x EmptyString.

Fixpoint esc_all (s : string) : string :=
  match s with
  | EmptyString => EmptyString
  | String x rest => (esc_char x ++ esc_all rest)%string
  end.

(** Does every character of [s] satisfy [p]? *)
Fixpoint all_chars (p : ascii -> bool) (s : string) : bool :=
  match s with
  | EmptyString => true
  | String c rest => p c && all_chars p rest
  end.

(** The WCAG level a single tag stands for: 3 for AAA, 2 for AA, 1 for A,
    0 for any other tag. *)
Definition tag_rank (t : string) : nat :=
  if mem t ["wcag2aaa"; "wcag21aaa"; "wcag22aaa"]%string then 3%nat
  else if mem t ["wcag2aa"; "wcag21aa"; "wcag22aa"]%string then 2%nat
  else if mem t ["wcag2a"; "wcag21a"; "wcag22a"]%string then 1%nat
  else 0%nat.

Definition level_name (n : nat) : string :=
  match n with
  | 3%nat => "AAA"
  | 2%nat => "AA"
  | 1%nat => "A"
  | _ => "Best Practice"
  end%string.

(** The characters [siteSlug] keeps: [\w] and ['-']. *)
Definition slug_char (c : ascii) : bool := is_word_char c || Ascii.eqb c "-".

(** The [rulesMap] entries have distinct ids; each entry's page set is
    non-empty and duplicate-free, holds only URLs of [S] and the page of each of its
    occurrences. *)
Definition entries_ok (S : list string) (m : list entry) : Prop :=
  List.NoDup (map e_id m) /\
  forall e, In e m ->
    e_uniquePages e <> [] /\
    NoDup (e_uniquePages e) /\ (forall u, In u (e_uniquePages e) -> In u S) /\
    (forall o, In o (e_occurrences e) -> In (o_page o) (e_uniquePages e)).

(** The number of occurrences held by the entries. *)
Definition sum_occ (m : list entry) : nat :=
  sum_list_with (fun e => length (e_occurrences e)) m.

(** Two rule objects at locations 0 and 1: [image-alt], also in the
    previous audit [[sample_prev_rule]], and [label], which is not. *)
Definition sample_heap : gmap loc rule :=
  <[0%nat := mkRule "image-alt" (Some "critical")
               [mkOcc "https://a.example/" "<img>" (TStr "img") None None] None None]>
  (<[1%nat := mkRule "label" (Some "serious")
                [mkOcc "https://a.example/about" "<input>" (TStr "input") None None] None None]> ∅).

(** A count of the [diff] of the rule object at a location, 0 if it has none. *)
Definition diff_field (f : rdiff -> nat) (o : option rule) : nat :=
  match o with
  | Some r => match r_diff r with Some d => f d | None => 0%nat end
  | None => 0%nat
  end.

(* ================================================================= *)
(** ** Sample inputs *)

(** An [image-alt] violation with one matched element. *)
Definition sample_violation : violation :=
  mkViolation "image-alt" (Some "critical") [mkNode "<img src=x>" ["main"; "img"]].

(** Two audited pages, both violating [image-alt]. *)
Definition sample_raw : list page_result :=
  [mkPage "https://a.example/" (Some [sample_violation]);
   mkPage "https://a.example/about" (Some [sample_violation])].

(** A placeholder rule for [nth]. *)
Definition dummy_rule : out_rule := mkOut "" None [] 0 0 false.

(** Three rules with recognised impacts, for the priority ranking. *)
Definition sample_rules : list out_rule :=
  [mkOut "region" (Some "moderate")
     [mkOcc "https://a.example/" "<div>" (TStr "div") None None] 1 50 false;
   mkOut "image-alt" (Some "critical")
     [mkOcc "https://a.example/" "<img>" (TStr "img") None None;
      mkOcc "https://a.example/about" "<img>" (TStr "img") None None] 2 100 true;
   mkOut "label" (Some "serious") [] 0 0 false].

(** Three readable history files and one corrupted one. *)
Definition sample_history : list (option hist_entry) :=
  [Some (mkHistEntry "2024-03-01" (mkHT 4 20 2) (Some 300));
   None;
   Some (mkHistEntry "2024-01-01" (mkHT 7 30 2) (Some 100));
   Some (mkHistEntry "2024-02-01" (mkHT 5 25 2) (Some 200))].

(** The identity [stripChildren]. *)
Definition keep_html (s : string) : string := s.

(** Twelve scanned pages, [image-alt] on the first one only. *)
Definition sample_raw12 : list page_result :=
  mkPage "https://a.example/1" (Some [sample_violation]) ::
  map (fun u => mkPage u (Some []))
    ["https://a.example/2"; "https://a.example/3"; "https://a.example/4";
     "https://a.example/5"; "https://a.example/6"; "https://a.example/7";
     "https://a.example/8"; "https://a.example/9"; "https://a.example/10";
     "https://a.example/11"; "https://a.example/12"].

(** A page that failed to scan. *)
Definition error_page : page_result := mkPage "https://a.example/13" None.

(** A rule object as handed to [diffRules]: no diff data yet. *)
Definition sample_rule : rule :=
  mkRule "image-alt" (Some "critical")
    [mkOcc "https://a.example/" "<img>" (TStr "img") None None] None None.

(** The page sets of the [rulesMap] entries are duplicate-free and hold
    only URLs of [S]. *)
Definition pages_within (S : list string) (m : list entry) : Prop :=
  forall e, In e m -> NoDup (e_uniquePages e) /\ (forall u, In u (e_uniquePages e) -> In u S).

(** The fields of an occurrence that the annotation copies. *)
Definition occ_base (o : occ) : string * string * target_t := (o_page o, o_html o, o_target o).

(** The previous audit stores [sample_rule] with its target already joined. *)
Definition sample_prev_rule : rule :=
  mkRule "image-alt" (Some "critical")
    [mkOcc "https://a.example/" "<img>" (TStr "img") (Some false) (Some false)] None None.

(** Two indexes agree on a rule id. *)
Definition index_agree (ix ix' : prev_index) (id : string) : Prop :=
  prevOccurrencesByRule ix !! id = prevOccurrencesByRule ix' !! id /\
  prevPagesByRule ix !! id = prevPagesByRule ix' !! id /\
  (In id (prevRuleIds ix) <-> In id (prevRuleIds ix')).

(* ================================================================= *)
(** * Properties *)

(* ----------------------------------------------------------------- *)
(** ** Strings and occurrence keys *)

Lemma has_hash_before_hash (s : string) : has_hash (before_hash s) = false.
Proof.
  induction s as [|c s IH]; simpl; [reflexivity|].
  destruct (Ascii.eqb c "#"%char) eqn:E; simpl; [reflexivity|].
  rewrite E, IH. reflexivity.
Qed.

Lemma before_hash_no_hash (s : string) : has_hash s = false -> before_hash s = s.
Proof.
  induction s as [|c s IH]; simpl; [reflexivity|].
  intros H. apply orb_false_iff in H as [Hc Hs].
  rewrite Hc, IH by exact Hs. reflexivity.
Qed.

Lemma has_hash_strip (s : string) : has_hash s = false -> has_hash (strip_trailing_slash s) = false.
Proof.
  induction s as [|c s IH]; simpl; [reflexivity|].
  intros H. apply orb_false_iff in H as [Hc Hs].
  destruct s as [|c' s'].
  - destruct (Ascii.eqb c "/"%char); simpl; [reflexivity|]. rewrite Hc. reflexivity.
  - simpl. rewrite Hc. simpl. apply IH. exact Hs.
Qed.

Lemma strip_app_nonempty (pre : string) (c : ascii) (s : string) :
  strip_trailing_slash (pre ++ String c s) = (pre ++ strip_trailing_slash (String c s))%string.
Proof.
  induction pre as [|c' pre IH]; [reflexivity|].
  change (String c' pre ++ ?x)%string with (String c' (pre ++ x)%string).
  rewrite <- IH.
  destruct (pre ++ String c s)%string eqn:E.
  - destruct pre; discriminate.
  - reflexivity.
Qed.

Lemma before_hash_app_no_hash (pre s : string) :
  has_hash pre = false -> before_hash (pre ++ s) = (pre ++ before_hash s)%string.
Proof.
  induction pre as [|c pre IH]; simpl; [reflexivity|].
  intros H. apply orb_false_iff in H as [Hc Hp].
  rewrite Hc, IH by exact Hp. reflexivity.
Qed.

Lemma str_app_nil (s : string) : (s ++ "")%string = s.
Proof.
  induction s as [|c s IH]; [reflexivity|].
  change (String c s ++ "")%string with (String c (s ++ "")%string).
  rewrite IH. reflexivity.
Qed.

Lemma cleanPage_no_hash (page : string) :
  has_hash page = false -> cleanPage page = strip_trailing_slash page.
Proof.
  intros H. unfold cleanPage. apply before_hash_no_hash, has_hash_strip, H.
Qed.

Lemma cleanPage_fragment (pre frag : string) :
  has_hash pre = false -> cleanPage (pre ++ String "#" frag) = pre.
Proof.
  intros H. unfold cleanPage.
  rewrite strip_app_nonempty, before_hash_app_no_hash by exact H.
  destruct frag; simpl; apply str_app_nil.
Qed.

(** C2 (amended): the occurrence key is [cleanPage + '|' + ruleId + '|' +
    selector], the selector being the target segments joined with [' > ']
    (a pre-joined target string as it is); [cleanPage] carries no ['#']
    fragment, and for a page URL without ['#'] it is the URL with one
    trailing slash removed. *)
Theorem occurrence_key_amended (page ruleId : string) (node : occ) :
  getOccurrenceKey page ruleId node =
    (cleanPage page ++ "|" ++ ruleId ++ "|" ++
     match o_target node with TArr segs => String.concat " > " segs | TStr s => s end)%string /\
  has_hash (cleanPage page) = false /\
  (has_hash page = false -> cleanPage page = strip_trailing_slash page) /\
  (forall pre frag, has_hash pre = false -> page = (pre ++ String "#" frag)%string ->
     cleanPage page = pre \/ cleanPage page = strip_trailing_slash pre).
Proof.
  split; [reflexivity|].
  split; [apply has_hash_before_hash|].
  split; [apply cleanPage_no_hash|].
  intros pre frag Hpre ->. left. apply cleanPage_fragment, Hpre.
Qed.

(** C2 (counterexample): for the page ["http://s/p/#x"] the key keeps the
    slash before the fragment and joins the selector with [' > '], so it is
    not ["http://s/p|r|a>b"]. *)
Lemma occurrence_key_counterexample :
  getOccurrenceKey "http://s/p/#x" "r" (mkOcc "http://s/p/#x" "<a>" (TArr ["a"; "b"]) None None)
    = "http://s/p/|r|a > b"%string /\
  getOccurrenceKey "http://s/p/#x" "r" (mkOcc "http://s/p/#x" "<a>" (TArr ["a"; "b"]) None None)
    <> "http://s/p|r|a>b"%string.
Proof. split; vm_compute; [reflexivity | discriminate]. Qed.

(* ----------------------------------------------------------------- *)
(** ** The stable sort keeps its elements *)

Lemma in_insert_by {A} (cmp : A -> A -> Z) (x y : A) (l : list A) :
  In y (insert_by cmp x l) <-> y = x \/ In y l.
Proof.
  induction l as [|z l IH]; simpl.
  - intuition.
  - destruct (cmp x z <? 0); simpl; rewrite ?IH; intuition.
Qed.

Lemma in_sort_by_aux {A} (cmp : A -> A -> Z) (l acc : list A) (y : A) :
  In y (fold_left (fun acc x => insert_by cmp x acc) l acc) <-> In y acc \/ In y l.
Proof.
  revert acc. induction l as [|x l IH]; intros acc; simpl.
  - intuition.
  - rewrite IH, in_insert_by. intuition.
Qed.

Lemma in_sort_by {A} (cmp : A -> A -> Z) (l : list A) (y : A) :
  In y (sort_by cmp l) <-> In y l.
Proof. unfold sort_by. rewrite in_sort_by_aux. simpl. intuition. Qed.

(** Every rule returned by [aggregateRules] is a finalized [rulesMap] entry. *)
Lemma aggregate_rule_inv (stripChildren : string -> string) (raw : list page_result) (r : out_rule) :
  In r (ao_rules (aggregateRules stripChildren raw)) ->
  exists e, In e (fst (collect stripChildren raw)) /\
            r = strip_agg (finalize (length raw) e).
Proof.
  unfold aggregateRules. destruct (collect stripChildren raw) as [m cnt] eqn:Hc.
  simpl. intros Hr.
  apply in_map_iff in Hr as [a [<- Ha]].
  apply in_sort_by, in_map_iff in Ha as [e [<- He]].
  exists e. split; [exact He | reflexivity].
Qed.

(* ----------------------------------------------------------------- *)
(** ** Systemic rules *)

(** C8: an aggregated rule is systemic iff it affects every audited page
    and more than one page was audited; with one audited page no rule is
    systemic. *)
Theorem isSystemic_iff (stripChildren : string -> string) (raw : list page_result) (r : out_rule)
    (Hr : In r (ao_rules (aggregateRules stripChildren raw))) :
  (ar_isSystemic r = true <-> ar_pagesAffected r = length raw /\ (1 < length raw)%nat) /\
  (length raw = 1%nat -> ar_isSystemic r = false).
Proof.
  apply aggregate_rule_inv in Hr as [e [_ ->]]. simpl.
  rewrite andb_true_iff, Nat.ltb_lt, Nat.eqb_eq.
  split; [tauto|].
  intros ->. reflexivity.
Qed.

(** Witness for C8 on two pages that both carry [image-alt]. *)
Lemma isSystemic_iff_witness :
  In (nth 0 (ao_rules (aggregateRules keep_html sample_raw)) dummy_rule)
     (ao_rules (aggregateRules keep_html sample_raw)) /\
  ((ar_isSystemic (nth 0 (ao_rules (aggregateRules keep_html sample_raw)) dummy_rule) = true <->
    ar_pagesAffected (nth 0 (ao_rules (aggregateRules keep_html sample_raw)) dummy_rule)
      = length sample_raw /\ (1 < length sample_raw)%nat) /\
   (length sample_raw = 1%nat ->
    ar_isSystemic (nth 0 (ao_rules (aggregateRules keep_html sample_raw)) dummy_rule) = false)).
Proof.
  assert (H : In (nth 0 (ao_rules (aggregateRules keep_html sample_raw)) dummy_rule)
                 (ao_rules (aggregateRules keep_html sample_raw)))
    by (vm_compute; left; reflexivity).
  split; [exact H | apply (isSystemic_iff keep_html sample_raw _ H)].
Defined.

(* ----------------------------------------------------------------- *)
(** ** Priority scores *)

(** C4 (code bug): a rule whose impact is not one of the four weighted
    values gets the score [undefined + pagesAffected], i.e. [NaN], not
    [pagesAffected]; the recognised tiers give the documented scores. *)
Theorem priorityScore_unrecognized_impact :
  priorityScore (mkOut "region" None
                   [mkOcc "https://a.example/" "<div>" (TStr "div") None None] 1 100 false) = JNaN /\
  priorityScore (mkOut "region" (Some "unknown")
                   [mkOcc "https://a.example/" "<div>" (TStr "div") None None] 1 100 false) = JNaN /\
  map priorityScore
    [mkOut "image-alt" (Some "critical")
       [mkOcc "https://a.example/" "<img>" (TStr "img") None None] 1 100 false;
     mkOut "color-contrast" (Some "serious")
       (map (fun p => mkOcc p "<p>" (TStr "p") None None)
            ["https://a.example/1"; "https://a.example/2"; "https://a.example/3";
             "https://a.example/4"; "https://a.example/5"]) 5 100 false;
     mkOut "region" (Some "minor")
       [mkOcc "https://a.example/" "<div>" (TStr "div") None None] 1 100 false]
  = [JNum 10001; JNum 1005; JNum 11].
Proof. split; [|split]; vm_compute; reflexivity. Qed.

(* ----------------------------------------------------------------- *)
(** ** Percentages *)

(** [aggregateRules] guards both percentages. *)
Lemma aggregate_percentages_guarded (stripChildren : string -> string) (raw : list page_result) :
  (snd (collect stripChildren raw) = 0%nat ->
   ao_violationPercentage (aggregateRules stripChildren raw) = 0) /\
  (length raw = 0%nat -> ao_pagePercentage (aggregateRules stripChildren raw) = 0).
Proof.
  unfold aggregateRules. destruct (collect stripChildren raw) as [m cnt]. simpl.
  split; intros ->; reflexivity.
Qed.

(** The part_008 variant guards both priority percentages. *)
Lemma prioritySummary_008_guarded (rules : list out_rule) (n : nat) :
  (total_occurrences rules = 0%nat -> percentOfViolations (prioritySummary_008 rules n) = JNum 0) /\
  (n = 0%nat -> percentOfPages (prioritySummary_008 rules n) = JNum 0).
Proof. unfold prioritySummary_008. simpl. split; intros ->; reflexivity. Qed.

(** C6 (code bug): for one audited page without violations the part_009
    variant computes [Math.round(0 / 0 * 100)], which is [NaN], where
    part_008 and [aggregateRules] give [0]. *)
Theorem prioritySummary_009_zero_occurrences :
  run_summary_009 keep_html [mkPage "https://a.example/" (Some [])]
    = mkPrioritySummary JNaN (JNum 0) /\
  run_summary_008 keep_html [mkPage "https://a.example/" (Some [])]
    = mkPrioritySummary (JNum 0) (JNum 0) /\
  ao_violationPercentage (aggregateRules keep_html [mkPage "https://a.example/" (Some [])]) = 0.
Proof. split; [|split]; vm_compute; reflexivity. Qed.

(* ----------------------------------------------------------------- *)
(** ** History totals *)

Lemma fold_hist_step {A} (c w : A -> nat) (l : list A) (a b : nat) :
  fold_left (fun acc x => hist_step acc (c x) (w x)) l (a, b) =
  (a + sum_list_with c l, b + sum_list_with (fun x => c x * w x) l)%nat.
Proof.
  revert a b. induction l as [|x l IH]; intros a b; simpl.
  - f_equal; lia.
  - rewrite IH. f_equal; lia.
Qed.

Lemma fold_hist_pages (pages : list hist_page) (a b : nat) :
  fold_left (fun acc page =>
      fold_left (fun acc v =>
          hist_step acc (length (default [] (hv_nodes v))) (history_weight (hv_impact v)))
        (default [] (hp_violations page)) acc) pages (a, b) =
  (a + sum_list_with (fun page =>
          sum_list_with (fun v => length (default [] (hv_nodes v))) (default [] (hp_violations page))) pages,
   b + sum_list_with (fun page =>
          sum_list_with (fun v => length (default [] (hv_nodes v)) * history_weight (hv_impact v))
            (default [] (hp_violations page))) pages)%nat.
Proof.
  revert a b. induction pages as [|pg pages IH]; intros a b; simpl.
  - f_equal; lia.
  - rewrite (fold_hist_step (fun v => length (default [] (hv_nodes v)))
                            (fun v => history_weight (hv_impact v))).
    rewrite IH. f_equal; lia.
Qed.

(** C5 (amended): for a processed snapshot [totalPenalty] is the sum over
    rules of occurrence count times the history weight, and for a legacy
    per-page array the sum over violations of node count times that
    weight; the history weight is critical=10, serious=5, moderate=2,
    minor=1 and 1 for any other or missing impact. *)
Theorem history_penalty_amended :
  (forall rules pa pc urls,
     totalPenalty (history_totals_of (HObject (Some rules) pa pc urls)) =
       sum_list_with (fun r => length (default [] (hr_occurrences r)) * history_weight (hr_impact r))%nat
         rules) /\
  (forall pages,
     totalPenalty (history_totals_of (HArray pages)) =
       sum_list_with (fun page =>
           sum_list_with (fun v => length (default [] (hv_nodes v)) * history_weight (hv_impact v))%nat
             (default [] (hp_violations page))) pages) /\
  history_weight (Some "critical"%string) = 10%nat /\
  history_weight (Some "serious"%string) = 5%nat /\
  history_weight (Some "moderate"%string) = 2%nat /\
  history_weight (Some "minor"%string) = 1%nat /\
  (forall i, i <> Some "critical"%string -> i <> Some "serious"%string ->
             i <> Some "moderate"%string -> i <> Some "minor"%string -> history_weight i = 1%nat).
Proof.
  split.
  { intros rules pa pc urls. simpl.
    rewrite (fold_hist_step (fun r => length (default [] (hr_occurrences r)))
                            (fun r => history_weight (hr_impact r))).
    reflexivity. }
  split.
  { intros pages. simpl. rewrite fold_hist_pages. reflexivity. }
  do 4 (split; [reflexivity|]).
  intros i H1 H2 H3 H4. unfold history_weight.
  repeat (match goal with
          | |- context [match ?x with _ => _ end] => destruct x
          end; try reflexivity; try congruence).
Qed.

(** C5 (counterexample): one critical occurrence in a processed snapshot
    weighs 10, not 10000, and an occurrence of unrecognised impact
    weighs 1, not 0. *)
Lemma history_penalty_counterexample :
  totalPenalty (history_totals_of
    (HObject (Some [mkHR (Some "critical") (Some [mkOcc "https://a.example/" "<img>" (TStr "img") None None])])
             (Some 1%nat) None None)) = 10%nat /\
  totalPenalty (history_totals_of
    (HObject (Some [mkHR None (Some [mkOcc "https://a.example/" "<div>" (TStr "div") None None])])
             (Some 1%nat) None None)) = 1%nat.
Proof. split; reflexivity. Qed.

(* ----------------------------------------------------------------- *)
(** ** The page total of [aggregateRules] *)

Lemma mem_In (x : string) (l : list string) : mem x l = true <-> In x l.
Proof.
  unfold mem. rewrite existsb_exists. split.
  - intros [y [Hy Heq]]. apply String.eqb_eq in Heq. subst. exact Hy.
  - intros H. exists x. split; [exact H | apply String.eqb_refl].
Qed.

Lemma set_add_spec (x : string) (s : list string) :
  NoDup s -> NoDup (set_add x s) /\ (forall u, In u (set_add x s) <-> u = x \/ In u s).
Proof.
  intros Hs. unfold set_add. destruct (mem x s) eqn:E.
  - apply mem_In in E. split; [exact Hs|]. intros u. split; [tauto|].
    intros [->|H]; assumption.
  - assert (Hx : ~ In x s) by (intros H; apply mem_In in H; congruence).
    split.
    + apply NoDup_app. split; [exact Hs|]. split.
      * intros y Hy Hy'. apply list_elem_of_In in Hy. apply list_elem_of_In in Hy'.
        destruct Hy' as [<-|[]]. exact (Hx Hy).
      * constructor; [intros Hin; inversion Hin | constructor].
    + intros u. rewrite in_app_iff. simpl. intuition congruence.
Qed.

Lemma add_violation_within (stripChildren : string -> string) S url m c v :
  pages_within S m -> In url S ->
  pages_within S (fst (add_violation stripChildren url (m, c) v)).
Proof.
  intros Hm Hurl e He. simpl in He.
  apply in_map_iff in He as [e0 [<- He0]].
  assert (H0 : NoDup (e_uniquePages e0) /\ (forall u, In u (e_uniquePages e0) -> In u S)).
  { destruct (existsb _ m); [apply Hm, He0|].
    apply in_app_iff in He0 as [He0|[<-|[]]]; [apply Hm, He0|].
    simpl. split; [constructor | intros u []]. }
  destruct H0 as [Hnd Hin].
  destruct (String.eqb (e_id e0) (v_id v)); [|split; assumption].
  simpl. destruct (set_add_spec url _ Hnd) as [Hnd' Hsp].
  split; [exact Hnd'|]. intros u Hu. apply Hsp in Hu as [->|Hu]; auto.
Qed.

Lemma fold_add_violation_within (stripChildren : string -> string) S url vs acc :
  pages_within S (fst acc) -> In url S ->
  pages_within S (fst (fold_left (add_violation stripChildren url) vs acc)).
Proof.
  revert acc. induction vs as [|v vs IH]; intros [m c] Hm Hurl; simpl; [exact Hm|].
  apply IH; [|exact Hurl].
  apply add_violation_within; assumption.
Qed.

Lemma collect_within_aux (stripChildren : string -> string) S raw acc :
  pages_within S (fst acc) -> (forall pr, In pr raw -> In (p_url pr) S) ->
  pages_within S (fst (fold_left (add_page stripChildren) raw acc)).
Proof.
  revert acc. induction raw as [|pr raw IH]; intros acc Hacc Hraw; simpl; [exact Hacc|].
  apply IH; [|intros q Hq; apply Hraw; right; exact Hq].
  unfold add_page. apply fold_add_violation_within; [exact Hacc|].
  apply Hraw. left. reflexivity.
Qed.

(** Every rule affects at most as many pages as the input has entries. *)
Lemma collect_pages_bound (stripChildren : string -> string) (raw : list page_result) e :
  In e (fst (collect stripChildren raw)) -> (length (e_uniquePages e) <= length raw)%nat.
Proof.
  intros He.
  assert (Hw : pages_within (map p_url raw) (fst (collect stripChildren raw))).
  { apply collect_within_aux; [intros x []|].
    intros pr Hpr. apply in_map, Hpr. }
  destruct (Hw e He) as [Hnd Hin].
  rewrite <- (length_map p_url raw).
  apply NoDup_incl_length; [apply NoDup_ListNoDup, Hnd | intros u Hu; apply Hin, Hu].
Qed.

(** A page carrying only an error marker changes nothing in [rulesMap]. *)
Lemma collect_error_page (stripChildren : string -> string) raw1 raw2 url :
  collect stripChildren (raw1 ++ mkPage url None :: raw2) = collect stripChildren (raw1 ++ raw2).
Proof.
  unfold collect. rewrite !fold_left_app. reflexivity.
Qed.

Lemma density_of_succ (p n : nat) : (p <= n)%nat -> density_of p (S n) <= density_of p n.
Proof.
  intros Hp. unfold density_of.
  destruct n as [|n].
  - assert (p = 0%nat) by lia. subst. vm_compute. discriminate.
  - replace (0 <? S (S n))%nat with true by reflexivity.
    replace (0 <? S n)%nat with true by reflexivity.
    set (q := (200 * Z.of_nat p + Z.of_nat (S (S n))) / (2 * Z.of_nat (S (S n)))).
    assert (Hq : 2 * Z.of_nat (S (S n)) * q <= 200 * Z.of_nat p + Z.of_nat (S (S n)))
      by (apply Z.mul_div_le; lia).
    apply Z.div_le_lower_bound; [lia|].
    destruct (Z_le_gt_dec q 0); nia.
Qed.

(** Every [rulesMap] entry is returned, finalized. *)
Lemma aggregate_rule_in (stripChildren : string -> string) (raw : list page_result) e :
  In e (fst (collect stripChildren raw)) ->
  In (strip_agg (finalize (length raw) e)) (ao_rules (aggregateRules stripChildren raw)).
Proof.
  unfold aggregateRules. destruct (collect stripChildren raw) as [m cnt]. simpl. intros He.
  apply in_map, in_sort_by, in_map, He.
Qed.

(** C10 (amended): density, the systemic check and the page percentages
    all divide by the length of the raw input, error-only entries
    included; hence a page that failed to scan never raises a rule's
    two-decimal density (it may leave it unchanged), leaves its
    pagesAffected alone, and makes every rule non-systemic. *)
Theorem page_total_amended (stripChildren : string -> string) :
  (forall raw r, In r (ao_rules (aggregateRules stripChildren raw)) ->
     ar_density r = density_of (ar_pagesAffected r) (length raw) /\
     ar_isSystemic r = ((1 <? length raw) && (ar_pagesAffected r =? length raw))%nat) /\
  (forall raw, exists k, ao_pagePercentage (aggregateRules stripChildren raw) =
       if (0 <? length raw)%nat then round_pct k (length raw) else 0) /\
  (forall raw, exists k, percentOfPages (run_summary_008 stripChildren raw) =
       JNum (if (0 <? length raw)%nat then round_pct k (length raw) else 0)) /\
  (forall raw1 raw2 url r',
     In r' (ao_rules (aggregateRules stripChildren (raw1 ++ mkPage url None :: raw2))) ->
     exists r, In r (ao_rules (aggregateRules stripChildren (raw1 ++ raw2))) /\
       ar_id r = ar_id r' /\ ar_pagesAffected r = ar_pagesAffected r' /\
       ar_density r' <= ar_density r /\ ar_isSystemic r' = false).
Proof.
  split; [|split; [|split]].
  - intros raw r Hr. apply aggregate_rule_inv in Hr as [e [_ ->]]. split; reflexivity.
  - intros raw. unfold aggregateRules. destruct (collect stripChildren raw) as [m cnt].
    eexists. reflexivity.
  - intros raw. eexists. reflexivity.
  - intros raw1 raw2 url r' Hr.
    apply aggregate_rule_inv in Hr as [e [He ->]].
    rewrite collect_error_page in He.
    pose proof (collect_pages_bound stripChildren _ e He) as Hb.
    exists (strip_agg (finalize (length (raw1 ++ raw2)) e)).
    split; [apply aggregate_rule_in, He|].
    assert (Hlen : length (raw1 ++ mkPage url None :: raw2) = S (length (raw1 ++ raw2)))
      by (rewrite !length_app; simpl; lia).
    rewrite Hlen. simpl.
    split; [reflexivity|]. split; [reflexivity|].
    split; [apply density_of_succ, Hb|].
    apply andb_false_iff. right. apply Nat.eqb_neq. lia.
Qed.

(** C10 (counterexample): with twelve scanned pages and [image-alt] on one
    of them, adding a page that failed to scan leaves the rule's density at
    0.08: [1/12] and [1/13] both round to two decimals as 0.08. *)
Lemma page_total_counterexample :
  map ar_density (ao_rules (aggregateRules keep_html sample_raw12)) = [8] /\
  map ar_density (ao_rules (aggregateRules keep_html (sample_raw12 ++ [error_page]))) = [8].
Proof. split; vm_compute; reflexivity. Qed.

(* ----------------------------------------------------------------- *)
(** ** The annotation of one rule object *)

Lemma combine_map_self {A B} (g : A -> B) (l : list A) :
  combine l (map g l) = map (fun x => (x, g x)) l.
Proof. induction l as [|x l IH]; simpl; [reflexivity|]. rewrite IH. reflexivity. Qed.

Lemma annotate_occurrences prevAudit ix r :
  r_occurrences (fst (annotate_rule prevAudit ix r)) =
  map (fun o =>
         mkOcc (o_page o) (o_html o) (o_target o)
           (Some (if bool_decide (is_Some prevAudit)
                  then negb (mem (getOccurrenceKey (o_page o) (r_id r) o)
                                 (default [] (prevOccurrencesByRule ix !! r_id r)))
                  else false))
           (Some (if bool_decide (is_Some prevAudit)
                  then mem (strip_trailing_slash (o_page o))
                           (d_newPages (default (mkDiff 0 0 0 [])
                              (r_diff (fst (annotate_rule prevAudit ix r)))))
                  else false)))
      (r_occurrences r).
Proof.
  unfold annotate_rule at 1. simpl. unfold rule_keys. rewrite combine_map_self, map_map.
  reflexivity.
Qed.

Lemma annotate_id prevAudit ix r : r_id (fst (annotate_rule prevAudit ix r)) = r_id r.
Proof. reflexivity. Qed.

Lemma annotate_impact prevAudit ix r : r_impact (fst (annotate_rule prevAudit ix r)) = r_impact r.
Proof. reflexivity. Qed.

Lemma annotate_base prevAudit ix r :
  map occ_base (r_occurrences (fst (annotate_rule prevAudit ix r))) = map occ_base (r_occurrences r).
Proof. rewrite annotate_occurrences, map_map. reflexivity. Qed.

Lemma rule_keys_pairs (r : rule) : rule_keys r = map (key_of (r_id r)) (map occ_pair (r_occurrences r)).
Proof. unfold rule_keys. rewrite map_map. reflexivity. Qed.

Lemma rule_pages_pairs (r : rule) :
  rule_pages r = map (fun pr => strip_trailing_slash (fst pr)) (map occ_pair (r_occurrences r)).
Proof. unfold rule_pages. rewrite map_map. reflexivity. Qed.

Lemma annotate_pairs prevAudit ix r :
  map occ_pair (r_occurrences (fst (annotate_rule prevAudit ix r))) = map occ_pair (r_occurrences r).
Proof. rewrite annotate_occurrences, map_map. reflexivity. Qed.

Lemma annotate_keys prevAudit ix r :
  rule_keys (fst (annotate_rule prevAudit ix r)) = rule_keys r.
Proof. rewrite !rule_keys_pairs, annotate_pairs. reflexivity. Qed.

(* ----------------------------------------------------------------- *)
(** ** The loop over the rule objects *)

Section Loop.
Variable prevAudit : option (list rule).
Variable ix : prev_index.
(** [P l] holds of the object at [l] before and after each annotation,
    [Q l] after it, and [T] of the running totals. *)
Variables (P Q : loc -> rule -> Prop) (T : totals -> Prop).
Hypothesis step : forall l r, P l r ->
  P l (fst (annotate_rule prevAudit ix r)) /\ Q l (fst (annotate_rule prevAudit ix r)) /\
  (forall t, T t -> T (add_counts t (snd (annotate_rule prevAudit ix r)))).

Lemma diff_loop_inv (ls : list loc) (h : gmap loc rule) (tot : totals) :
  T tot -> (forall l, In l ls -> exists r, h !! l = Some r /\ P l r) ->
  exists h' tot', diff_loop prevAudit ix h ls tot = Some (h', tot') /\ T tot' /\
    (forall l, In l ls -> exists r', h' !! l = Some r' /\ P l r' /\ Q l r') /\
    (forall l, ~ In l ls -> h' !! l = h !! l).
Proof.
  revert h tot. induction ls as [|l ls IH]; intros h tot Htot Hls.
  - exists h, tot. split; [reflexivity|]. split; [exact Htot|].
    split; [intros l []|]. intros l _. reflexivity.
  - destruct (Hls l (or_introl eq_refl)) as [r [Hr HP]].
    cbn [diff_loop]. rewrite Hr.
    destruct (step l r HP) as [HP' [HQ' HT']].
    destruct (annotate_rule prevAudit ix r) as [r' c] eqn:Ea.
    cbn [fst snd] in HP', HQ', HT'.
    destruct (IH (<[l := r']> h) (add_counts tot c)) as [h' [tot' [Hrun [HT [Hin Hout]]]]].
    + apply HT', Htot.
    + intros l' Hl'. destruct (decide (l' = l)) as [->|Hne].
      * exists r'. split; [apply lookup_insert_eq | exact HP'].
      * rewrite lookup_insert_ne by congruence. apply Hls. right. exact Hl'.
    + exists h', tot'. split; [exact Hrun|]. split; [exact HT|]. split.
      * intros l' [<-|Hl']; [|apply Hin, Hl'].
        destruct (in_dec Nat.eq_dec l ls) as [Hl|Hl]; [apply Hin, Hl|].
        exists r'. rewrite Hout by exact Hl. rewrite lookup_insert_eq. auto.
      * intros l' Hl'. rewrite Hout by (intros H; apply Hl'; right; exact H).
        rewrite lookup_insert_ne by (intros ->; apply Hl'; left; reflexivity).
        reflexivity.
Qed.
End Loop.

(** The loop keeps the rule id stored at every location. *)
Lemma diff_loop_ids prevAudit ix ls h tot h' tot' :
  diff_loop prevAudit ix h ls tot = Some (h', tot') ->
  forall l, option_map r_id (h' !! l) = option_map r_id (h !! l).
Proof.
  revert h tot. induction ls as [|l0 ls IH]; intros h tot; cbn [diff_loop].
  - intros [= -> ->] l. reflexivity.
  - destruct (h !! l0) as [r|] eqn:Hr; [|discriminate].
    destruct (annotate_rule prevAudit ix r) as [r' c] eqn:Ea.
    intros Hrun l. rewrite (IH _ _ Hrun l).
    destruct (decide (l = l0)) as [->|Hne].
    + rewrite lookup_insert_eq, Hr. simpl.
      change r' with (fst (r', c)). rewrite <- Ea. reflexivity.
    + rewrite lookup_insert_ne by congruence. reflexivity.
Qed.

Lemma not_is_Some_None {A} : ~ is_Some (@None A).
Proof. intros [x Hx]. discriminate. Qed.

Lemma is_Some_Some {A} (x : A) : is_Some (Some x).
Proof. exists x. reflexivity. Qed.

Lemma length_annotated prevAudit ix r :
  length (r_occurrences (fst (annotate_rule prevAudit ix r))) = length (r_occurrences r).
Proof. rewrite annotate_occurrences, length_map. reflexivity. Qed.

(** With no previous audit every occurrence is a baseline occurrence. *)
Lemma annotate_first_run ix r :
  r_diff (fst (annotate_rule None ix r)) = Some (mkDiff 0 0 (length (r_occurrences r)) []) /\
  r_isNewRule (fst (annotate_rule None ix r)) = Some false /\
  (forall o, In o (r_occurrences (fst (annotate_rule None ix r))) ->
             o_isNewOccurrence o = Some false /\ o_isNewPage o = Some false) /\
  snd (annotate_rule None ix r) = (0%nat, 0%nat, length (r_occurrences r)).
Proof.
  assert (Hb : bool_decide (is_Some (@None (list rule))) = false)
    by (apply bool_decide_false, not_is_Some_None).
  split; [|split; [|split]].
  - unfold annotate_rule. cbn [fst r_diff]. rewrite Hb. unfold rule_keys. rewrite length_map.
    reflexivity.
  - unfold annotate_rule. cbn [fst r_isNewRule]. rewrite Hb. reflexivity.
  - intros o Ho. rewrite annotate_occurrences in Ho.
    apply in_map_iff in Ho as [o0 [<- _]]. rewrite Hb. split; reflexivity.
  - unfold annotate_rule. cbn [snd]. rewrite Hb. unfold rule_keys. rewrite length_map.
    reflexivity.
Qed.

(* ----------------------------------------------------------------- *)
(** ** First run *)

(** C3: when no previous audit could be read, every rule gets
    [diff = { new: 0, resolved: 0, unchanged: occurrence count, newPages: {} }],
    [isNewRule = false], every occurrence [isNewOccurrence = false] and
    [isNewPage = false], and [diffTotals.newViolations = 0]. *)
Theorem diffRules_first_run (h : gmap loc rule) (ls : list loc)
    (friendlyNames : string -> option string)
    (Hls : forall l, In l ls -> is_Some (h !! l)) :
  exists h' res, diffRules h ls friendlyNames None = Some (h', res) /\
    newViolations (res_diffTotals res) = 0%nat /\
    resolvedViolations (res_diffTotals res) = 0%nat /\
    res_fullyResolvedRules res = [] /\
    (forall l, In l ls -> exists r r', h !! l = Some r /\ h' !! l = Some r' /\
       r_diff r' = Some (mkDiff 0 0 (length (r_occurrences r)) []) /\
       r_isNewRule r' = Some false /\
       (forall o, In o (r_occurrences r') ->
          o_isNewOccurrence o = Some false /\ o_isNewPage o = Some false)).
Proof.
  set (P := fun l x => exists r, h !! l = Some r /\ length (r_occurrences x) = length (r_occurrences r)).
  set (Q := fun (_ : loc) x =>
              r_diff x = Some (mkDiff 0 0 (length (r_occurrences x)) []) /\
              r_isNewRule x = Some false /\
              (forall o, In o (r_occurrences x) ->
                 o_isNewOccurrence o = Some false /\ o_isNewPage o = Some false)).
  set (T := fun t => newViolations t = 0%nat /\ resolvedViolations t = 0%nat).
  destruct (diff_loop_inv None (build_index None) P Q T) with (ls := ls) (h := h) (tot := mkTotals 0 0 0)
    as [h' [tot' [Hrun [HT [Hin _]]]]].
  - intros l x [r [Hr Hlen]].
    destruct (annotate_first_run (build_index None) x) as [Hd [Hn [Ho Hc]]].
    split; [exists r; split; [exact Hr|]; rewrite length_annotated; exact Hlen|].
    split; [unfold Q; rewrite length_annotated; tauto|].
    intros [n rs u] [Hn0 Hr0]. rewrite Hc. unfold T. simpl in *. split; lia.
  - split; reflexivity.
  - intros l Hl. destruct (Hls l Hl) as [r Hr]. exists r. split; [exact Hr|].
    unfold P. exists r. auto.
  - exists h', (mkResult ls tot' []). unfold diffRules. rewrite Hrun.
    split; [reflexivity|]. split; [apply HT|]. split; [apply HT|]. split; [reflexivity|].
    intros l Hl. destruct (Hin l Hl) as [r' [Hr' [[r [Hr Hlen]] [Hd [Hn Ho]]]]].
    exists r, r'. rewrite <- Hlen. auto.
Qed.

(** Witness for C3 on one rule object with one occurrence. *)
Lemma diffRules_first_run_witness :
  (forall l, In l [0%nat] ->
     is_Some ((<[0%nat := mkRule "image-alt" (Some "critical")
                  [mkOcc "https://a.example/" "<img>" (TStr "img") None None] None None]>
               (∅ : gmap loc rule)) !! l)) /\
  exists h' res,
    diffRules (<[0%nat := mkRule "image-alt" (Some "critical")
                  [mkOcc "https://a.example/" "<img>" (TStr "img") None None] None None]> ∅)
              [0%nat] (fun _ => None) None = Some (h', res) /\
    newViolations (res_diffTotals res) = 0%nat /\
    resolvedViolations (res_diffTotals res) = 0%nat /\
    res_fullyResolvedRules res = [] /\
    (forall l, In l [0%nat] -> exists r r',
       (<[0%nat := mkRule "image-alt" (Some "critical")
                  [mkOcc "https://a.example/" "<img>" (TStr "img") None None] None None]>
          (∅ : gmap loc rule)) !! l = Some r /\ h' !! l = Some r' /\
       r_diff r' = Some (mkDiff 0 0 (length (r_occurrences r)) []) /\
       r_isNewRule r' = Some false /\
       (forall o, In o (r_occurrences r') ->
          o_isNewOccurrence o = Some false /\ o_isNewPage o = Some false)).
Proof.
  assert (H : forall l, In l [0%nat] ->
     is_Some ((<[0%nat := mkRule "image-alt" (Some "critical")
                  [mkOcc "https://a.example/" "<img>" (TStr "img") None None] None None]>
               (∅ : gmap loc rule)) !! l)).
  { intros l [<-|[]]. rewrite lookup_insert_eq. apply is_Some_Some. }
  split; [exact H|]. apply (diffRules_first_run _ _ _ H).
Defined.

(* ----------------------------------------------------------------- *)
(** ** In-place annotation *)

(** The annotated occurrences all carry both flags. *)
Lemma annotate_occ_flags prevAudit ix r :
  forall o, In o (r_occurrences (fst (annotate_rule prevAudit ix r))) ->
    o_isNewOccurrence o <> None /\ o_isNewPage o <> None.
Proof.
  intros o Ho. unfold annotate_rule in Ho. cbn [fst r_occurrences] in Ho.
  apply in_map_iff in Ho as [[o' k] [<- _]]. cbn [o_isNewOccurrence o_isNewPage].
  split; discriminate.
Qed.

(** C1 (amended): [diffRules] is not a pure transform.  It writes the diff
    data into the input rule objects in place: every rule object of the
    input array gets [diff] and [isNewRule] set and its [occurrences]
    replaced by copies that carry [isNewOccurrence] and [isNewPage] and
    keep page, html and target (in the same order); it
    returns the same array, leaves objects outside it untouched, and each
    rule keeps its id and impact. *)
Theorem diffRules_in_place (h : gmap loc rule) (ls : list loc)
    (friendlyNames : string -> option string) (prevAudit : option (list rule))
    (Hls : forall l, In l ls -> is_Some (h !! l)) :
  exists h' res, diffRules h ls friendlyNames prevAudit = Some (h', res) /\
    res_rules res = ls /\
    (forall l, ~ In l ls -> h' !! l = h !! l) /\
    (forall l, In l ls -> exists r r', h !! l = Some r /\ h' !! l = Some r' /\
       r_id r' = r_id r /\ r_impact r' = r_impact r /\
       r_diff r' <> None /\ r_isNewRule r' <> None /\
       (forall o, In o (r_occurrences r') ->
          o_isNewOccurrence o <> None /\ o_isNewPage o <> None) /\
       map occ_base (r_occurrences r') = map occ_base (r_occurrences r)).
Proof.
  set (P := fun l x => exists r, h !! l = Some r /\ r_id x = r_id r /\ r_impact x = r_impact r /\
                         map occ_base (r_occurrences x) = map occ_base (r_occurrences r)).
  set (Q := fun (_ : loc) x => r_diff x <> None /\ r_isNewRule x <> None /\
                         (forall o, In o (r_occurrences x) ->
                            o_isNewOccurrence o <> None /\ o_isNewPage o <> None)).
  destruct (diff_loop_inv prevAudit (build_index prevAudit) P Q (fun _ => True))
    with (ls := ls) (h := h) (tot := mkTotals 0 0 0)
    as [h' [tot' [Hrun [_ [Hin Hout]]]]].
  - intros l x [r [Hr [Hid [Himp Hb]]]]. split; [|split; [|intros; exact I]].
    + exists r. rewrite annotate_id, annotate_impact, annotate_base. auto.
    + unfold Q. split; [|split; [|apply annotate_occ_flags]];
        unfold annotate_rule; cbn [fst r_diff r_isNewRule]; discriminate.
  - exact I.
  - intros l Hl. destruct (Hls l Hl) as [r Hr]. exists r. split; [exact Hr|].
    unfold P. exists r. auto.
  - eexists h', _. unfold diffRules. rewrite Hrun.
    split; [reflexivity|]. split; [reflexivity|]. split; [exact Hout|].
    intros l Hl. destruct (Hin l Hl) as [r' [Hr' [[r [Hr [Hid [Himp Hb]]]] [Hd [Hn Ho]]]]].
    exists r, r'. split; [exact Hr|]. split; [exact Hr'|]. auto 10.
Qed.

(** Witness for C1 (amended) on one rule object without a previous audit. *)
Lemma diffRules_in_place_witness :
  (forall l, In l [0%nat] -> is_Some ((<[0%nat := sample_rule]> (∅ : gmap loc rule)) !! l)) /\
  exists h' res, diffRules (<[0%nat := sample_rule]> ∅) [0%nat] (fun _ => None) None = Some (h', res) /\
    res_rules res = [0%nat] /\
    (forall l, ~ In l [0%nat] -> h' !! l = (<[0%nat := sample_rule]> (∅ : gmap loc rule)) !! l) /\
    (forall l, In l [0%nat] -> exists r r',
       (<[0%nat := sample_rule]> (∅ : gmap loc rule)) !! l = Some r /\ h' !! l = Some r' /\
       r_id r' = r_id r /\ r_impact r' = r_impact r /\
       r_diff r' <> None /\ r_isNewRule r' <> None /\
       (forall o, In o (r_occurrences r') ->
          o_isNewOccurrence o <> None /\ o_isNewPage o <> None) /\
       map occ_base (r_occurrences r') = map occ_base (r_occurrences r)).
Proof.
  assert (H : forall l, In l [0%nat] -> is_Some ((<[0%nat := sample_rule]> (∅ : gmap loc rule)) !! l)).
  { intros l [<-|[]]. rewrite lookup_insert_eq. apply is_Some_Some. }
  split; [exact H|]. apply (diffRules_in_place _ _ _ _ H).
Defined.

(** C1 (counterexample): after [diffRules] the input rule object at
    location 0, which carried no diff, carries [diff] and [isNewRule],
    and its occurrences are no longer the ones it had. *)
Lemma diffRules_mutates_counterexample :
  exists h' res,
    diffRules (<[0%nat := sample_rule]> ∅) [0%nat] (fun _ => None) None = Some (h', res) /\
    res_rules res = [0%nat] /\
    r_diff sample_rule = None /\
    option_map r_diff (h' !! 0%nat) = Some (Some (mkDiff 0 0 1 [])) /\
    option_map r_isNewRule (h' !! 0%nat) = Some (Some false) /\
    option_map r_occurrences (h' !! 0%nat) <> Some (r_occurrences sample_rule).
Proof.
  do 2 eexists. split; [reflexivity|].
  vm_compute. split; [reflexivity|]. split; [reflexivity|]. split; [reflexivity|].
  split; [reflexivity|]. discriminate.
Qed.

(* ----------------------------------------------------------------- *)
(** ** Sets, filters and the index of the previous audit *)

Lemma mem_iff (x : string) (l l' : list string) :
  (In x l <-> In x l') -> mem x l = mem x l'.
Proof.
  intros H. destruct (mem x l) eqn:E1, (mem x l') eqn:E2; try reflexivity.
  - apply mem_In, H, mem_In in E1. congruence.
  - apply mem_In, H, mem_In in E2. congruence.
Qed.

Lemma dedup_aux_In (seen l : list string) (x : string) :
  In x (dedup_aux seen l) <-> In x l /\ ~ In x seen.
Proof.
  revert seen. induction l as [|y l IH]; intros seen; cbn [dedup_aux].
  - simpl. tauto.
  - destruct (mem y seen) eqn:E.
    + rewrite IH. apply mem_In in E. simpl. split; [tauto|].
      intros [[<-|H] Hn]; [contradiction | tauto].
    + assert (Hy : ~ In y seen) by (rewrite <- mem_In; congruence).
      simpl. rewrite IH. simpl.
      destruct (string_dec y x) as [<-|Hne]; [tauto|]. intuition congruence.
Qed.

Lemma dedup_In (l : list string) (x : string) : In x (dedup l) <-> In x l.
Proof. unfold dedup. rewrite dedup_aux_In. simpl. tauto. Qed.

Lemma filter_none {A} (f : A -> bool) (l : list A) :
  (forall x, In x l -> f x = false) -> List.filter f l = [].
Proof.
  induction l as [|x l IH]; intros H; [reflexivity|]. simpl.
  rewrite (H x (or_introl eq_refl)). apply IH. intros y Hy. apply H. right. exact Hy.
Qed.

Lemma filter_all {A} (f : A -> bool) (l : list A) :
  (forall x, In x l -> f x = true) -> List.filter f l = l.
Proof.
  induction l as [|x l IH]; intros H; [reflexivity|]. simpl.
  rewrite (H x (or_introl eq_refl)), IH; [reflexivity|]. intros y Hy. apply H. right. exact Hy.
Qed.

Lemma fold_index_other (prules : list rule) (ix : prev_index) (id : string) :
  ~ In id (map r_id prules) ->
  prevOccurrencesByRule (fold_left index_prev_rule prules ix) !! id = prevOccurrencesByRule ix !! id /\
  prevPagesByRule (fold_left index_prev_rule prules ix) !! id = prevPagesByRule ix !! id.
Proof.
  revert ix. induction prules as [|q prules IH]; intros ix Hn; cbn [fold_left map] in *.
  - split; reflexivity.
  - destruct (IH (index_prev_rule ix q)) as [H1 H2]; [intros H; apply Hn; right; exact H|]. rewrite H1, H2.
    unfold index_prev_rule. cbn [prevOccurrencesByRule prevPagesByRule].
    rewrite !lookup_insert_ne by (intros Heq; apply Hn; left; exact Heq).
    split; reflexivity.
Qed.

Lemma fold_index_ids (prules : list rule) (ix : prev_index) (x : string) :
  In x (prevRuleIds (fold_left index_prev_rule prules ix)) <->
  In x (prevRuleIds ix) \/ In x (map r_id prules).
Proof.
  revert ix. induction prules as [|q prules IH]; intros ix; cbn [fold_left map].
  - simpl. tauto.
  - rewrite IH. unfold index_prev_rule. cbn [prevRuleIds].
    destruct (mem (r_id q) (prevRuleIds ix)) eqn:E.
    + apply mem_In in E. simpl. intuition congruence.
    + rewrite in_app_iff. simpl. tauto.
Qed.

(** With distinct rule ids in the previous audit, its index holds every
    rule's own key set and page set. *)
Lemma fold_index_in (prules : list rule) (ix : prev_index) (p : rule) :
  List.NoDup (map r_id prules) -> In p prules ->
  prevOccurrencesByRule (fold_left index_prev_rule prules ix) !! r_id p = Some (dedup (rule_keys p)) /\
  prevPagesByRule (fold_left index_prev_rule prules ix) !! r_id p = Some (dedup (rule_pages p)).
Proof.
  revert ix. induction prules as [|q prules IH]; intros ix Hnd Hp; [destruct Hp|].
  cbn [map] in Hnd. apply NoDup_cons_iff in Hnd as [Hq Hnd]. cbn [fold_left].
  destruct Hp as [->|Hp].
  - destruct (fold_index_other prules (index_prev_rule ix p) (r_id p) Hq) as [H1 H2].
    rewrite H1, H2. unfold index_prev_rule. cbn [prevOccurrencesByRule prevPagesByRule].
    rewrite !lookup_insert_eq. split; reflexivity.
  - apply IH; assumption.
Qed.

Lemma in_map_same {A B} (f : A -> B) (l l' : list A) :
  (forall y, In y l <-> In y l') -> forall z, In z (map f l) <-> In z (map f l').
Proof.
  intros H z. rewrite !in_map_iff. split; intros [y [Hy Hi]]; exists y; split; auto; apply H; exact Hi.
Qed.

(** One rule whose occurrences are exactly those of the rule with the
    same id in the previous audit. *)
Lemma annotate_fixed (prev : list rule) (x p : rule) :
  List.NoDup (map r_id prev) -> In p prev -> r_id p = r_id x ->
  (forall y, In y (map occ_pair (r_occurrences x)) <-> In y (map occ_pair (r_occurrences p))) ->
  r_diff (fst (annotate_rule (Some prev) (build_index (Some prev)) x)) =
    Some (mkDiff 0 0 (length (dedup (rule_keys x))) []) /\
  r_isNewRule (fst (annotate_rule (Some prev) (build_index (Some prev)) x)) = Some false /\
  (forall o, In o (r_occurrences (fst (annotate_rule (Some prev) (build_index (Some prev)) x))) ->
     o_isNewOccurrence o = Some false /\ o_isNewPage o = Some false) /\
  snd (annotate_rule (Some prev) (build_index (Some prev)) x) =
    (0%nat, 0%nat, length (dedup (rule_keys x))).
Proof.
  intros Hnd Hp Hid Hsame.
  destruct (fold_index_in prev empty_index p Hnd Hp) as [Hocc Hpg].
  rewrite Hid in Hocc, Hpg.
  change (fold_left index_prev_rule prev empty_index) with (build_index (Some prev)) in Hocc, Hpg.
  assert (Hmem : mem (r_id x) (prevRuleIds (build_index (Some prev))) = true).
  { apply mem_In. unfold build_index. apply fold_index_ids. right.
    rewrite <- Hid. apply in_map, Hp. }
  assert (Hk : forall k, In k (rule_keys x) <-> In k (rule_keys p)).
  { intros k. rewrite !rule_keys_pairs, Hid. apply in_map_same, Hsame. }
  assert (Hg : forall g, In g (rule_pages x) <-> In g (rule_pages p)).
  { intros g. rewrite !rule_pages_pairs. apply in_map_same, Hsame. }
  assert (Hb : bool_decide (is_Some (Some prev)) = true) by (apply bool_decide_true, is_Some_Some).
  assert (Hnew : List.filter (fun k => negb (mem k (dedup (rule_keys p)))) (dedup (rule_keys x)) = []).
  { apply filter_none. intros k Hin. apply negb_false_iff, mem_In, dedup_In, Hk, dedup_In, Hin. }
  assert (Hres : List.filter (fun k => negb (mem k (dedup (rule_keys x)))) (dedup (rule_keys p)) = []).
  { apply filter_none. intros k Hin. apply negb_false_iff, mem_In, dedup_In, Hk, dedup_In, Hin. }
  assert (Hunch : List.filter (fun k => mem k (dedup (rule_keys p))) (dedup (rule_keys x)) =
                  dedup (rule_keys x)).
  { apply filter_all. intros k Hin. apply mem_In, dedup_In, Hk, dedup_In, Hin. }
  assert (Hpages : List.filter (fun g => negb (mem g (dedup (rule_pages p)))) (dedup (rule_pages x)) = []).
  { apply filter_none. intros g Hin. apply negb_false_iff, mem_In, dedup_In, Hg, dedup_In, Hin. }
  assert (Hd : r_diff (fst (annotate_rule (Some prev) (build_index (Some prev)) x)) =
               Some (mkDiff 0 0 (length (dedup (rule_keys x))) [])).
  { unfold annotate_rule. cbn [fst r_diff]. rewrite Hb, Hocc, Hpg. cbn [default id].
    rewrite Hnew, Hres, Hunch, Hpages. reflexivity. }
  split; [exact Hd|]. split; [|split].
  - unfold annotate_rule. cbn [fst r_isNewRule]. rewrite Hb, Hmem. reflexivity.
  - intros o Ho. rewrite annotate_occurrences in Ho.
    apply in_map_iff in Ho as [o0 [<- Ho0]]. rewrite Hb, Hd. cbn [default id d_newPages].
    rewrite Hocc. cbn [default id]. split; [|reflexivity].
    assert (Hin : In (getOccurrenceKey (o_page o0) (r_id x) o0) (rule_keys x)).
    { unfold rule_keys. apply (in_map (fun o => getOccurrenceKey (o_page o) (r_id x) o)), Ho0. }
    apply Hk, (proj2 (dedup_In _ _)), (proj2 (mem_In _ _)) in Hin. rewrite Hin. reflexivity.
  - unfold annotate_rule. cbn [snd]. rewrite Hb, Hocc. cbn [default id].
    rewrite Hnew, Hres, Hunch. reflexivity.
Qed.

(* ----------------------------------------------------------------- *)
(** ** Fixed point *)

(** C7: when every current rule's occurrences (page, rule id, selector)
    are exactly those of the rule with the same id in the previous audit
    (whose rule ids are distinct), every rule gets [diff.new = 0],
    [diff.resolved = 0], [diff.unchanged] = its number of distinct
    occurrence keys, empty [newPages], [isNewRule = false], every
    occurrence [isNewOccurrence = false] (and [isNewPage = false]), and
    both [diffTotals.newViolations] and [diffTotals.resolvedViolations]
    are 0. *)
Theorem diffRules_fixed_point (h : gmap loc rule) (ls : list loc)
    (friendlyNames : string -> option string) (prev : list rule)
    (Hnd : List.NoDup (map r_id prev))
    (Hls : forall l, In l ls -> exists r p, h !! l = Some r /\ In p prev /\ r_id p = r_id r /\
       (forall y, In y (map occ_pair (r_occurrences r)) <-> In y (map occ_pair (r_occurrences p)))) :
  exists h' res, diffRules h ls friendlyNames (Some prev) = Some (h', res) /\
    newViolations (res_diffTotals res) = 0%nat /\
    resolvedViolations (res_diffTotals res) = 0%nat /\
    (forall l, In l ls -> exists r r', h !! l = Some r /\ h' !! l = Some r' /\
       r_diff r' = Some (mkDiff 0 0 (length (dedup (rule_keys r))) []) /\
       r_isNewRule r' = Some false /\
       (forall o, In o (r_occurrences r') ->
          o_isNewOccurrence o = Some false /\ o_isNewPage o = Some false)).
Proof.
  set (P := fun l x => exists r p, h !! l = Some r /\ rule_keys x = rule_keys r /\
              In p prev /\ r_id p = r_id x /\
              (forall y, In y (map occ_pair (r_occurrences x)) <-> In y (map occ_pair (r_occurrences p)))).
  set (Q := fun (_ : loc) x =>
              r_diff x = Some (mkDiff 0 0 (length (dedup (rule_keys x))) []) /\
              r_isNewRule x = Some false /\
              (forall o, In o (r_occurrences x) ->
                 o_isNewOccurrence o = Some false /\ o_isNewPage o = Some false)).
  set (T := fun t => newViolations t = 0%nat /\ resolvedViolations t = 0%nat).
  destruct (diff_loop_inv (Some prev) (build_index (Some prev)) P Q T)
    with (ls := ls) (h := h) (tot := mkTotals 0 0 0) as [h' [tot' [Hrun [HT [Hin _]]]]].
  - intros l x [r [p [Hr [Hkx [Hp [Hid Hsame]]]]]].
    destruct (annotate_fixed prev x p Hnd Hp Hid Hsame) as [Hd [Hn [Ho Hc]]].
    split; [|split].
    + exists r, p. rewrite annotate_keys, annotate_id, annotate_pairs. auto.
    + unfold Q. rewrite annotate_keys. auto.
    + intros [n rs u] [Hn0 Hr0]. rewrite Hc. unfold T. simpl in *. split; lia.
  - split; reflexivity.
  - intros l Hl. destruct (Hls l Hl) as [r [p [Hr [Hp [Hid Hsame]]]]].
    exists r. split; [exact Hr|]. exists r, p. auto.
  - eexists h', _. unfold diffRules. rewrite Hrun.
    split; [reflexivity|]. split; [apply HT|]. split; [apply HT|].
    intros l Hl. destruct (Hin l Hl) as [r' [Hr' [[r [p [Hr [Hk _]]]] [Hd [Hn Ho]]]]].
    exists r, r'. rewrite <- Hk. auto.
Qed.

(** Witness for C7: the current object has its target as an array, the
    previous audit has it as a joined string. *)
Lemma diffRules_fixed_point_witness :
  List.NoDup (map r_id [sample_prev_rule]) /\
  (forall l, In l [0%nat] -> exists r p,
     (<[0%nat := sample_rule]> (∅ : gmap loc rule)) !! l = Some r /\ In p [sample_prev_rule] /\
     r_id p = r_id r /\
     (forall y, In y (map occ_pair (r_occurrences r)) <-> In y (map occ_pair (r_occurrences p)))) /\
  exists h' res, diffRules (<[0%nat := sample_rule]> ∅) [0%nat] (fun _ => None)
                           (Some [sample_prev_rule]) = Some (h', res) /\
    newViolations (res_diffTotals res) = 0%nat /\
    resolvedViolations (res_diffTotals res) = 0%nat /\
    (forall l, In l [0%nat] -> exists r r',
       (<[0%nat := sample_rule]> (∅ : gmap loc rule)) !! l = Some r /\ h' !! l = Some r' /\
       r_diff r' = Some (mkDiff 0 0 (length (dedup (rule_keys r))) []) /\
       r_isNewRule r' = Some false /\
       (forall o, In o (r_occurrences r') ->
          o_isNewOccurrence o = Some false /\ o_isNewPage o = Some false)).
Proof.
  assert (Hnd : List.NoDup (map r_id [sample_prev_rule])).
  { simpl. constructor; [intros []|constructor]. }
  assert (Hls : forall l, In l [0%nat] -> exists r p,
     (<[0%nat := sample_rule]> (∅ : gmap loc rule)) !! l = Some r /\ In p [sample_prev_rule] /\
     r_id p = r_id r /\
     (forall y, In y (map occ_pair (r_occurrences r)) <-> In y (map occ_pair (r_occurrences p)))).
  { intros l [<-|[]]. exists sample_rule, sample_prev_rule.
    split; [apply lookup_insert_eq|]. split; [left; reflexivity|].
    split; [reflexivity|]. intros y. vm_compute. tauto. }
  split; [exact Hnd|]. split; [exact Hls|].
  apply (diffRules_fixed_point _ _ _ _ Hnd Hls).
Defined.

(* ----------------------------------------------------------------- *)
(** ** Rules of the previous audit that are gone *)

(** Dropping from the previous audit the rules whose id is not current
    does not change the index at any current id. *)
Lemma fold_index_filter (cur : list string) (prules : list rule) (ix ix' : prev_index) (id : string) :
  In id cur -> index_agree ix ix' id ->
  index_agree (fold_left index_prev_rule prules ix)
              (fold_left index_prev_rule (List.filter (fun p => mem (r_id p) cur) prules) ix') id.
Proof.
  revert ix ix'. induction prules as [|q prules IH]; intros ix ix' Hid Hag; [exact Hag|].
  cbn [fold_left List.filter]. destruct (mem (r_id q) cur) eqn:E.
  - cbn [fold_left]. apply IH; [exact Hid|].
    destruct Hag as [H1 [H2 H3]]. unfold index_agree, index_prev_rule. cbn.
    destruct (decide (r_id q = id)) as [<-|Hne].
    + rewrite !lookup_insert_eq. split; [reflexivity|]. split; [reflexivity|].
      destruct (mem (r_id q) (prevRuleIds ix)) eqn:E1, (mem (r_id q) (prevRuleIds ix')) eqn:E2;
        rewrite ?in_app_iff; simpl; try apply mem_In in E1; try apply mem_In in E2; tauto.
    + rewrite !lookup_insert_ne by exact Hne. split; [exact H1|]. split; [exact H2|].
      destruct (mem (r_id q) (prevRuleIds ix)), (mem (r_id q) (prevRuleIds ix'));
        rewrite ?in_app_iff; simpl; intuition congruence.
  - apply IH; [exact Hid|].
    assert (Hne : r_id q <> id) by (intros Heq; rewrite <- Heq in Hid; apply mem_In in Hid; congruence).
    destruct Hag as [H1 [H2 H3]]. unfold index_agree, index_prev_rule. cbn.
    rewrite !lookup_insert_ne by exact Hne. split; [exact H1|]. split; [exact H2|].
    destruct (mem (r_id q) (prevRuleIds ix)); rewrite ?in_app_iff; simpl; intuition congruence.
Qed.

(** [annotate_rule] reads the index only at the rule's own id. *)
Lemma annotate_congr (prules prules' : list rule) (ix ix' : prev_index) (r : rule) :
  index_agree ix ix' (r_id r) ->
  annotate_rule (Some prules) ix r = annotate_rule (Some prules') ix' r.
Proof.
  intros [H1 [H2 H3]]. unfold annotate_rule.
  rewrite H1, H2, (mem_iff _ _ _ H3). reflexivity.
Qed.

Lemma diff_loop_congr (prules prules' : list rule) (ix ix' : prev_index) (cur : list string)
    (ls : list loc) (h : gmap loc rule) (tot : totals) :
  (forall id, In id cur -> index_agree ix ix' id) ->
  (forall l r, In l ls -> h !! l = Some r -> In (r_id r) cur) ->
  diff_loop (Some prules) ix h ls tot = diff_loop (Some prules') ix' h ls tot.
Proof.
  intros Hag. revert h tot. induction ls as [|l ls IH]; intros h tot Hcur; [reflexivity|].
  cbn [diff_loop]. destruct (h !! l) as [r|] eqn:Hr; [|reflexivity].
  assert (Hid : In (r_id r) cur) by (apply (Hcur l); [left; reflexivity | exact Hr]).
  rewrite (annotate_congr prules prules' ix ix' r (Hag _ Hid)).
  destruct (annotate_rule (Some prules') ix' r) as [r' c] eqn:Ea.
  apply IH. intros l' r'' Hl' Hr''. destruct (decide (l' = l)) as [->|Hne].
  - rewrite lookup_insert_eq in Hr''. injection Hr'' as <-.
    change r' with (fst (r', c)). rewrite <- Ea, annotate_id. exact Hid.
  - rewrite lookup_insert_ne in Hr'' by congruence. apply (Hcur l'); [right; exact Hl' | exact Hr''].
Qed.

Lemma heap_ids_loop prevAudit ix ls h tot h' tot' :
  diff_loop prevAudit ix h ls tot = Some (h', tot') -> heap_ids h' ls = heap_ids h ls.
Proof.
  intros Hrun. unfold heap_ids. apply map_ext. intros l.
  pose proof (diff_loop_ids prevAudit ix ls h tot h' tot' Hrun l) as E.
  destruct (h' !! l), (h !! l); simpl in E; congruence.
Qed.

(** C9: the rules of the previous audit whose id is not among the current
    rule ids play no part in the annotations or in [diffTotals]: removing
    them from the previous audit gives the same annotated rule objects and
    the same totals.  They only appear in [fullyResolvedRules], as records
    of id, display name and previous impact (the record type has no other
    field). *)
Theorem diffRules_gone_rules (h : gmap loc rule) (ls : list loc)
    (friendlyNames : string -> option string) (prev : list rule) :
  option_map (fun hr => (fst hr, res_diffTotals (snd hr)))
    (diffRules h ls friendlyNames (Some prev)) =
  option_map (fun hr => (fst hr, res_diffTotals (snd hr)))
    (diffRules h ls friendlyNames
       (Some (List.filter (fun p => mem (r_id p) (heap_ids h ls)) prev))) /\
  match diffRules h ls friendlyNames (Some prev) with
  | Some (_, res) =>
      res_fullyResolvedRules res =
        map (fun p => mkResolved (r_id p) (friendly friendlyNames (r_id p)) (r_impact p))
            (List.filter (fun p => negb (mem (r_id p) (heap_ids h ls))) prev)
  | None => True
  end.
Proof.
  split.
  - unfold diffRules.
    rewrite (diff_loop_congr prev (List.filter (fun p => mem (r_id p) (heap_ids h ls)) prev)
               (build_index (Some prev))
               (build_index (Some (List.filter (fun p => mem (r_id p) (heap_ids h ls)) prev)))
               (heap_ids h ls)).
    + destruct (diff_loop _ _ _ _ _) as [[h' tot]|]; reflexivity.
    + intros id Hid. apply fold_index_filter; [exact Hid|].
      split; [reflexivity|]. split; [reflexivity|]. tauto.
    + intros l r Hl Hr. unfold heap_ids.
      apply (in_map_iff (fun l => match h !! l with Some r => r_id r | None => ""%string end)).
      exists l. rewrite Hr. auto.
  - unfold diffRules.
    destruct (diff_loop _ _ _ _ _) as [[h' tot]|] eqn:Hrun; [|exact I].
    cbn [res_fullyResolvedRules]. rewrite (heap_ids_loop _ _ _ _ _ _ _ Hrun). reflexivity.
Qed.

(* ================================================================= *)
(** * Further properties of the code *)

(* ----------------------------------------------------------------- *)
(** ** The stable insertion sort *)

Section SortFacts.
Context {A : Type} (cmp : A -> A -> Z).

Lemma insert_by_perm (x : A) (l : list A) : Permutation (insert_by cmp x l) (x :: l).
Proof.
  induction l as [|y l IH]; simpl; [reflexivity|].
  destruct (cmp x y <? 0); [reflexivity|].
  rewrite IH. apply perm_swap.
Qed.

Lemma sort_by_perm_aux (l acc : list A) :
  Permutation (fold_left (fun acc x => insert_by cmp x acc) l acc) (l ++ acc).
Proof.
  revert acc. induction l as [|x l IH]; intros acc; simpl; [reflexivity|].
  rewrite IH, insert_by_perm. symmetry. apply Permutation_middle.
Qed.

Lemma sort_by_perm (l : list A) : Permutation (sort_by cmp l) l.
Proof. unfold sort_by. rewrite sort_by_perm_aux, app_nil_r. reflexivity. Qed.

(** A comparator that is antisymmetric, as every comparator of the code is. *)
Hypothesis cmp_anti : forall a b, cmp b a = - cmp a b.

Lemma insert_by_hd (y x : A) (l : list A) :
  cmp y x <= 0 -> HdRel (fun a b => cmp a b <= 0) y l ->
  HdRel (fun a b => cmp a b <= 0) y (insert_by cmp x l).
Proof.
  intros Hyx Hl. destruct l as [|z l]; simpl; [constructor; exact Hyx|].
  destruct (cmp x z <? 0); constructor; [exact Hyx|]. inversion Hl; assumption.
Qed.

Lemma insert_by_sorted (x : A) (l : list A) :
  Sorted (fun a b => cmp a b <= 0) l -> Sorted (fun a b => cmp a b <= 0) (insert_by cmp x l).
Proof.
  induction l as [|y l IH]; intros Hs; simpl; [repeat constructor|].
  destruct (cmp x y <? 0) eqn:E.
  - constructor; [exact Hs|]. constructor. apply Z.ltb_lt in E. lia.
  - apply Sorted_inv in Hs as [Hs Hhd]. constructor; [apply IH, Hs|].
    apply insert_by_hd; [|exact Hhd]. rewrite cmp_anti. apply Z.ltb_ge in E. lia.
Qed.

Lemma sort_by_sorted (l : list A) : Sorted (fun a b => cmp a b <= 0) (sort_by cmp l).
Proof.
  unfold sort_by. assert (H : Sorted (fun a b => cmp a b <= 0) (@nil A)) by constructor.
  revert H. generalize (@nil A). induction l as [|x l IH]; intros acc Hacc; simpl; [exact Hacc|].
  apply IH, insert_by_sorted, Hacc.
Qed.
End SortFacts.

Lemma Sorted_weaken_in {A} (R R' : A -> A -> Prop) (l : list A) :
  (forall a b, In a l -> In b l -> R a b -> R' a b) -> Sorted R l -> Sorted R' l.
Proof.
  induction l as [|x l IH]; intros HR Hs; [constructor|].
  apply Sorted_inv in Hs as [Hs Hhd]. constructor.
  - apply IH; [|exact Hs]. intros a b Ha Hb. apply HR; right; assumption.
  - destruct l as [|y l]; constructor. inversion Hhd; subst.
    apply HR; [left; reflexivity | right; left; reflexivity | assumption].
Qed.

Lemma Sorted_map {A B} (R : A -> A -> Prop) (R' : B -> B -> Prop) (f : A -> B) (l : list A) :
  (forall a b, R a b -> R' (f a) (f b)) -> Sorted R l -> Sorted R' (map f l).
Proof.
  intros HR. induction 1 as [|x l Hs IH Hhd]; simpl; constructor; [exact IH|].
  destruct Hhd; simpl; constructor. apply HR. assumption.
Qed.

Lemma In_skipn_In {A} (n : nat) (l : list A) (x : A) : In x (skipn n l) -> In x l.
Proof. intros H. rewrite <- (firstn_skipn n l). apply in_or_app. right. exact H. Qed.

Lemma In_firstn_In {A} (n : nat) (l : list A) (x : A) : In x (firstn n l) -> In x l.
Proof. intros H. rewrite <- (firstn_skipn n l). apply in_or_app. left. exact H. Qed.

Lemma StronglySorted_split {A} (R : A -> A -> Prop) (n : nat) (l : list A) :
  StronglySorted R l -> forall a b, In a (firstn n l) -> In b (skipn n l) -> R a b.
Proof.
  revert l. induction n as [|n IH]; intros l Hs a b Ha Hb; [destruct Ha|].
  destruct l as [|x l]; [destruct Ha|]. apply StronglySorted_inv in Hs as [Hs Hall].
  simpl in Ha, Hb. destruct Ha as [<-|Ha].
  - rewrite Forall_forall in Hall. apply Hall, list_elem_of_In, (In_skipn_In n), Hb.
  - eapply IH; eassumption.
Qed.

Lemma StronglySorted_skipn {A} (R : A -> A -> Prop) (n : nat) (l : list A) :
  StronglySorted R l -> StronglySorted R (skipn n l).
Proof.
  revert l. induction n as [|n IH]; intros l Hs; [exact Hs|].
  destruct l as [|x l]; [constructor|]. apply StronglySorted_inv in Hs as [Hs _]. apply IH, Hs.
Qed.

Lemma sum_list_with_perm {A} (f : A -> nat) (l l' : list A) :
  Permutation l l' -> sum_list_with f l = sum_list_with f l'.
Proof. induction 1; simpl; lia. Qed.

Lemma sum_list_with_map {A B} (f : B -> nat) (g : A -> B) (l : list A) :
  sum_list_with f (map g l) = sum_list_with (fun x => f (g x)) l.
Proof. induction l as [|x l IH]; simpl; [reflexivity|]. rewrite IH. reflexivity. Qed.

Lemma sum_list_with_firstn {A} (f : A -> nat) (n : nat) (l : list A) :
  (sum_list_with f (firstn n l) <= sum_list_with f l)%nat.
Proof.
  rewrite <- (firstn_skipn n l) at 2. rewrite sum_list_with_app. lia.
Qed.

Lemma length_sort_by {A} (cmp : A -> A -> Z) (l : list A) : length (sort_by cmp l) = length l.
Proof. apply Permutation_length, sort_by_perm. Qed.

(* ----------------------------------------------------------------- *)
(** ** aggregateRules: what [rulesMap] keeps *)

Lemma NoDup_snoc {A} (l : list A) (x : A) : List.NoDup l -> ~ In x l -> List.NoDup (l ++ [x]).
Proof.
  induction l as [|y l IH]; intros Hnd Hx; simpl; [constructor; [intros []|constructor]|].
  apply NoDup_cons_iff in Hnd as [Hy Hnd]. constructor.
  - rewrite in_app_iff. simpl. intros [H|[H|[]]]; [exact (Hy H)|]. apply Hx. left. congruence.
  - apply IH; [exact Hnd|]. intros H. apply Hx. right. exact H.
Qed.

Lemma sum_occ_update (m : list entry) (id : string) (g : entry -> entry) (k : nat) :
  List.NoDup (map e_id m) -> In id (map e_id m) ->
  (forall e, length (e_occurrences (g e)) = length (e_occurrences e) + k)%nat ->
  sum_occ (map (fun e => if String.eqb (e_id e) id then g e else e) m) = (sum_occ m + k)%nat.
Proof.
  unfold sum_occ. induction m as [|x m IH]; intros Hnd Hin Hg; [destruct Hin|].
  cbn [map] in Hnd, Hin. apply NoDup_cons_iff in Hnd as [Hx Hnd]. cbn [map sum_list_with].
  destruct (String.eqb_spec (e_id x) id) as [Heq|Hne].
  - rewrite Hg. rewrite (map_ext_in _ (fun e => e)), map_id; [lia|].
    intros e He. destruct (String.eqb_spec (e_id e) id) as [He'|]; [|reflexivity].
    exfalso. apply Hx. rewrite Heq, <- He'. apply in_map, He.
  - rewrite IH; [lia|exact Hnd| |exact Hg]. destruct Hin as [H|H]; [congruence|exact H].
Qed.

Lemma add_violation_ok (sc : string -> string) S url m c v :
  entries_ok S m -> sum_occ m = c -> In url S ->
  entries_ok S (fst (add_violation sc url (m, c) v)) /\
  sum_occ (fst (add_violation sc url (m, c) v)) = (c + length (v_nodes v))%nat.
Proof.
  intros [Hnd Hent] Hsum Hurl.
  set (m1 := if existsb (fun e => String.eqb (e_id e) (v_id v)) m then m
             else m ++ [mkEntry (v_id v) (v_impact v) [] []]).
  assert (H1 : List.NoDup (map e_id m1) /\ In (v_id v) (map e_id m1) /\ sum_occ m1 = sum_occ m /\
     forall e, In e m1 -> In e m \/ e = mkEntry (v_id v) (v_impact v) [] []).
  { unfold m1. destruct (existsb _ m) eqn:E.
    - apply existsb_exists in E as [e [He Heq]]. apply String.eqb_eq in Heq.
      split; [exact Hnd|]. split; [rewrite <- Heq; apply in_map, He|].
      split; [reflexivity|]. intros e0 He0. left. exact He0.
    - assert (Hn : ~ In (v_id v) (map e_id m)).
      { intros Hin. apply in_map_iff in Hin as [e [He Hin]].
        assert (existsb (fun e => String.eqb (e_id e) (v_id v)) m = true)
          by (apply existsb_exists; exists e; split; [exact Hin|apply String.eqb_eq, He]).
        congruence. }
      rewrite map_app. split; [apply NoDup_snoc; assumption|].
      split; [apply in_or_app; right; left; reflexivity|].
      split; [unfold sum_occ; rewrite sum_list_with_app; simpl; lia|].
      intros e He. apply in_app_iff in He as [He|[<-|[]]]; [left; exact He|right; reflexivity]. }
  destruct H1 as [Hnd1 [Hin1 [Hsum1 Hm1]]].
  assert (E : fst (add_violation sc url (m, c) v) =
              map (fun e => if String.eqb (e_id e) (v_id v) then
                      mkEntry (e_id e) (e_impact e)
                              (e_occurrences e ++ map (node_occ sc url) (v_nodes v))
                              (set_add url (e_uniquePages e))
                    else e) m1) by reflexivity.
  rewrite E. split; [split|].
  - rewrite map_map, (map_ext _ e_id); [exact Hnd1|].
    intros e. destruct (String.eqb (e_id e) (v_id v)); reflexivity.
  - intros e He. apply in_map_iff in He as [e0 [<- He0]].
    destruct (String.eqb_spec (e_id e0) (v_id v)) as [Heq|Hne].
    + assert (Hold : NoDup (e_uniquePages e0) /\ (forall u, In u (e_uniquePages e0) -> In u S) /\
                     (forall o, In o (e_occurrences e0) -> In (o_page o) (e_uniquePages e0))).
      { destruct (Hm1 e0 He0) as [He| ->]; [apply Hent, He|].
        simpl. split; [constructor|]. split; intros ? []. }
      destruct Hold as [Hu [Hs Ho]].
      cbn [e_uniquePages e_occurrences]. destruct (set_add_spec url _ Hu) as [Hu' Hsp].
      split; [intros Hnil; assert (Hx : In url (set_add url (e_uniquePages e0)))
                by (apply Hsp; left; reflexivity); rewrite Hnil in Hx; destruct Hx|].
      split; [exact Hu'|]. split.
      * intros u Hu2. apply Hsp in Hu2 as [->|Hu2]; auto.
      * intros o Ho2. apply Hsp. apply in_app_iff in Ho2 as [Ho2|Ho2]; [right; apply Ho, Ho2|].
        left. apply in_map_iff in Ho2 as [n [<- _]]. reflexivity.
    + destruct (Hm1 e0 He0) as [He| ->]; [apply Hent, He|]. simpl in Hne. congruence.
  - rewrite (sum_occ_update m1 (v_id v)
               (fun e => mkEntry (e_id e) (e_impact e)
                           (e_occurrences e ++ map (node_occ sc url) (v_nodes v))
                           (set_add url (e_uniquePages e))) (length (v_nodes v)));
      [lia|exact Hnd1|exact Hin1|].
    intros e. simpl. rewrite length_app, length_map. reflexivity.
Qed.

Lemma fold_add_violation_ok (sc : string -> string) S url vs acc :
  entries_ok S (fst acc) -> sum_occ (fst acc) = snd acc -> In url S ->
  entries_ok S (fst (fold_left (add_violation sc url) vs acc)) /\
  sum_occ (fst (fold_left (add_violation sc url) vs acc)) = snd (fold_left (add_violation sc url) vs acc).
Proof.
  revert acc. induction vs as [|v vs IH]; intros [m c] Hm Hs Hurl; [split; assumption|].
  cbn [fold_left]. destruct (add_violation_ok sc S url m c v Hm Hs Hurl) as [Hm' Hs'].
  apply IH; [exact Hm'| |exact Hurl]. rewrite Hs'. reflexivity.
Qed.

Lemma collect_ok (sc : string -> string) (raw : list page_result) :
  entries_ok (map p_url raw) (fst (collect sc raw)) /\
  sum_occ (fst (collect sc raw)) = snd (collect sc raw).
Proof.
  unfold collect.
  assert (H : forall S rs acc, (forall pr, In pr rs -> In (p_url pr) S) ->
            entries_ok S (fst acc) -> sum_occ (fst acc) = snd acc ->
            entries_ok S (fst (fold_left (add_page sc) rs acc)) /\
            sum_occ (fst (fold_left (add_page sc) rs acc)) = snd (fold_left (add_page sc) rs acc)).
  { intros S rs. induction rs as [|pr rs IH]; intros acc Hrs Hm Hs; [split; assumption|].
    cbn [fold_left]. unfold add_page at 2.
    destruct (fold_add_violation_ok sc S (p_url pr) (default [] (p_violations pr)) acc Hm Hs)
      as [Hm' Hs']; [apply Hrs; left; reflexivity|].
    apply IH; [intros q Hq; apply Hrs; right; exact Hq | exact Hm' | exact Hs']. }
  apply H.
  - intros pr Hpr. apply in_map, Hpr.
  - split; [constructor | intros e []].
  - reflexivity.
Qed.

Lemma fold_add_violation_snd (sc : string -> string) url vs acc :
  snd (fold_left (add_violation sc url) vs acc) =
  (snd acc + sum_list_with (fun v => length (v_nodes v)) vs)%nat.
Proof.
  revert acc. induction vs as [|v vs IH]; intros [m c]; simpl; [lia|].
  rewrite IH. simpl. lia.
Qed.

Lemma collect_snd (sc : string -> string) (raw : list page_result) :
  snd (collect sc raw) = raw_nodes raw.
Proof.
  unfold collect, raw_nodes.
  assert (H : forall acc, snd (fold_left (add_page sc) raw acc) =
     (snd acc + sum_list_with (fun pr => sum_list_with (fun v => length (v_nodes v))
                                          (default [] (p_violations pr))) raw)%nat).
  { induction raw as [|pr raw IH]; intros acc; simpl; [lia|].
    rewrite IH. unfold add_page. rewrite fold_add_violation_snd. lia. }
  rewrite H. reflexivity.
Qed.

Lemma ao_rules_perm (sc : string -> string) (raw : list page_result) :
  Permutation (ao_rules (aggregateRules sc raw))
              (map (fun e => strip_agg (finalize (length raw) e)) (fst (collect sc raw))).
Proof.
  unfold aggregateRules. destruct (collect sc raw) as [m cnt]. cbn [ao_rules fst].
  rewrite <- (map_map (finalize (length raw)) strip_agg). apply Permutation_map, sort_by_perm.
Qed.

Lemma ao_rules_from (sc : string -> string) (raw : list page_result) (r : out_rule) :
  In r (ao_rules (aggregateRules sc raw)) ->
  exists e, In e (fst (collect sc raw)) /\ r = strip_agg (finalize (length raw) e).
Proof.
  intros Hr. apply (Permutation_in _ (ao_rules_perm sc raw)) in Hr.
  apply in_map_iff in Hr as [e [<- He]]. eauto.
Qed.

Lemma round_pct_bounds (a b : nat) : (0 < b)%nat -> (a <= b)%nat -> 0 <= round_pct a b <= 100.
Proof.
  intros Hb Hab. unfold round_pct. split; [apply Z.div_pos; lia|].
  assert ((200 * Z.of_nat a + Z.of_nat b) / (2 * Z.of_nat b) < 101)
    by (apply Z.div_lt_upper_bound; lia). lia.
Qed.

Lemma dedup_aux_NoDup (seen l : list string) : List.NoDup (dedup_aux seen l).
Proof.
  revert seen. induction l as [|x l IH]; intros seen; cbn [dedup_aux]; [constructor|].
  destruct (mem x seen); [apply IH|]. constructor; [|apply IH].
  intros Hx. apply dedup_aux_In in Hx as [_ Hx]. apply Hx. left. reflexivity.
Qed.

Lemma dedup_NoDup (l : list string) : List.NoDup (dedup l).
Proof. apply dedup_aux_NoDup. Qed.

Lemma fold_set_add (ps acc : list string) :
  NoDup acc ->
  NoDup (fold_left (fun s p => set_add p s) ps acc) /\
  (forall u, In u (fold_left (fun s p => set_add p s) ps acc) <-> In u acc \/ In u ps).
Proof.
  revert acc. induction ps as [|p ps IH]; intros acc Hacc; cbn [fold_left].
  - split; [exact Hacc|]. intros u. simpl. tauto.
  - destruct (set_add_spec p acc Hacc) as [Hn Hs]. destruct (IH _ Hn) as [Hn' Hs'].
    split; [exact Hn'|]. intros u. rewrite Hs', Hs. simpl. intuition congruence.
Qed.

Lemma fold_pages_set (S : list string) (rs : list agg_rule) (acc : list string) :
  NoDup acc -> (forall u, In u acc -> In u S) ->
  (forall r u, In r rs -> In u (a_uniquePages r) -> In u S) ->
  NoDup (fold_left (fun s r => fold_left (fun s p => set_add p s) (a_uniquePages r) s) rs acc) /\
  (forall u, In u (fold_left (fun s r => fold_left (fun s p => set_add p s) (a_uniquePages r) s) rs acc) ->
             In u S).
Proof.
  revert acc. induction rs as [|r rs IH]; intros acc Hacc Hsub Hrs; cbn [fold_left]; [auto|].
  destruct (fold_set_add (a_uniquePages r) acc Hacc) as [Hn Hs].
  apply IH; [exact Hn| |].
  - intros u Hu. apply Hs in Hu as [Hu|Hu]; [apply Hsub, Hu|apply (Hrs r); [left; reflexivity|exact Hu]].
  - intros r' u Hr' Hu. apply (Hrs r'); [right; exact Hr'|exact Hu].
Qed.

(** X1: every matched element of the raw results becomes exactly one
    occurrence of one aggregated rule: the occurrences of all rules add up
    to the number of nodes over all pages and violations. *)
Theorem aggregate_occurrences_conserved (sc : string -> string) (raw : list page_result) :
  total_occurrences (ao_rules (aggregateRules sc raw)) = raw_nodes raw.
Proof.
  unfold total_occurrences.
  rewrite (sum_list_with_perm _ _ _ (ao_rules_perm sc raw)), sum_list_with_map.
  destruct (collect_ok sc raw) as [_ Hs]. unfold sum_occ in Hs.
  rewrite <- (collect_snd sc raw), <- Hs. reflexivity.
Qed.

(** X2: the aggregated rules have pairwise distinct ids (one entry per
    rule id of [rulesMap]). *)
Theorem aggregate_ids_distinct (sc : string -> string) (raw : list page_result) :
  List.NoDup (map ar_id (ao_rules (aggregateRules sc raw))).
Proof.
  eapply Permutation_NoDup; [apply Permutation_map; symmetry; apply ao_rules_perm|].
  rewrite map_map. exact (proj1 (proj1 (collect_ok sc raw))).
Qed.

(** X4: every aggregated rule affects at least one and at most all
    scanned pages, and its density lies between 0 and 100. *)
Theorem aggregate_rule_bounds (sc : string -> string) (raw : list page_result) (r : out_rule) :
  In r (ao_rules (aggregateRules sc raw)) ->
  (1 <= ar_pagesAffected r <= length raw)%nat /\ 0 <= ar_density r <= 100.
Proof.
  intros Hr. destruct (ao_rules_from sc raw r Hr) as [e [He ->]].
  destruct (collect_ok sc raw) as [[_ Hent] _].
  destruct (Hent e He) as [Hne [Hnd [Hsub _]]].
  assert (Hle : (length (e_uniquePages e) <= length raw)%nat).
  { rewrite <- (length_map p_url raw).
    apply NoDup_incl_length; [apply NoDup_ListNoDup, Hnd|exact Hsub]. }
  unfold strip_agg, finalize. cbn [ar_pagesAffected ar_density a_pagesAffected a_density]. split.
  - split; [|exact Hle]. destruct (e_uniquePages e); [congruence|simpl; lia].
  - unfold density_of. destruct (0 <? length raw)%nat eqn:E; [|lia].
    apply Nat.ltb_lt in E. apply (round_pct_bounds _ _ E Hle).
Qed.

(** X5: both summary percentages of [aggregateRules] lie between 0 and 100. *)
Theorem aggregate_percentages_bounded (sc : string -> string) (raw : list page_result) :
  0 <= ao_violationPercentage (aggregateRules sc raw) <= 100 /\
  0 <= ao_pagePercentage (aggregateRules sc raw) <= 100.
Proof.
  destruct (collect_ok sc raw) as [[_ Hent] Hsum].
  unfold aggregateRules. destruct (collect sc raw) as [m cnt]. cbn [fst snd] in Hent, Hsum.
  cbv zeta. cbn [ao_violationPercentage ao_pagePercentage].
  set (sorted := sort_by agg_cmp (map (finalize (length raw)) m)).
  assert (Hin : forall r, In r (firstn 5 sorted) -> exists e, In e m /\ r = finalize (length raw) e).
  { intros r Hr. apply In_firstn_In in Hr.
    apply (Permutation_in _ (sort_by_perm agg_cmp _)) in Hr.
    apply in_map_iff in Hr as [e [<- He]]. exists e. split; [exact He|reflexivity]. }
  split.
  - destruct (0 <? cnt)%nat eqn:E; [|lia]. apply Nat.ltb_lt in E. apply round_pct_bounds; [lia|].
    rewrite <- Hsum. eapply Nat.le_trans; [apply sum_list_with_firstn|].
    unfold sorted. rewrite (sum_list_with_perm _ _ _ (sort_by_perm agg_cmp _)), sum_list_with_map.
    apply Nat.le_refl.
  - destruct (0 <? length raw)%nat eqn:E; [|lia]. apply Nat.ltb_lt in E.
    apply round_pct_bounds; [lia|].
    destruct (fold_pages_set (map p_url raw) (firstn 5 sorted) []) as [Hnd Hsub].
    + constructor.
    + intros u [].
    + intros r u Hr Hu. destruct (Hin r Hr) as [e [He ->]].
      unfold finalize in Hu. cbn [a_uniquePages] in Hu. apply (Hent e He), Hu.
    + rewrite <- (length_map p_url raw).
      apply NoDup_incl_length; [apply NoDup_ListNoDup, Hnd|exact Hsub].
Qed.

(** X6: every occurrence of an aggregated rule names a scanned page, and
    the distinct pages of its occurrences are no more than its
    [pagesAffected]. *)
Theorem aggregate_occurrence_pages (sc : string -> string) (raw : list page_result) (r : out_rule) :
  In r (ao_rules (aggregateRules sc raw)) ->
  (forall o, In o (ar_occurrences r) -> In (o_page o) (map p_url raw)) /\
  (occ_unique_pages r <= ar_pagesAffected r)%nat.
Proof.
  intros Hr. destruct (ao_rules_from sc raw r Hr) as [e [He ->]].
  destruct (collect_ok sc raw) as [[_ Hent] _].
  destruct (Hent e He) as [_ [Hnd [Hsub Hocc]]].
  unfold occ_unique_pages. unfold strip_agg, finalize. cbn [ar_pagesAffected ar_occurrences a_pagesAffected a_occurrences]. split.
  - intros o Ho. apply Hsub, Hocc, Ho.
  - apply NoDup_incl_length; [apply dedup_NoDup|].
    intros u Hu. apply dedup_In, in_map_iff in Hu as [o [<- Ho]]. apply Hocc, Ho.
Qed.

Lemma agg_cmp_anti (a b : agg_rule) : agg_cmp b a = - agg_cmp a b.
Proof.
  unfold agg_cmp. cbv zeta.
  rewrite (Z.eqb_sym (impact_rank (a_impact b)) (impact_rank (a_impact a))).
  destruct (Z.eqb_spec (impact_rank (a_impact a)) (impact_rank (a_impact b))); cbn [negb]; [|lia].
  destruct (a_isSystemic a), (a_isSystemic b); cbn [Bool.eqb negb]; lia.
Qed.

Lemma agg_cmp_order (a b : agg_rule) : agg_cmp a b <= 0 -> agg_order (strip_agg a) (strip_agg b).
Proof.
  unfold agg_cmp, agg_order, strip_agg. cbv zeta. cbn [ar_impact ar_isSystemic ar_occurrences].
  intros H. split.
  - destruct (Z.eqb_spec (impact_rank (a_impact a)) (impact_rank (a_impact b))); [lia|].
    cbn [negb] in H. lia.
  - intros Heq. destruct (Z.eqb_spec (impact_rank (a_impact a)) (impact_rank (a_impact b)))
      as [_|Hne]; [|contradiction]. cbn [negb] in H.
    revert H. destruct (a_isSystemic a), (a_isSystemic b); cbn [Bool.eqb negb]; intros H;
      split; intros; try reflexivity; try discriminate; try lia.
Qed.

#[local] Instance agg_order_trans : Transitive agg_order.
Proof.
  intros a b c [H1 H2] [H3 H4]. split; [lia|]. intros Eac.
  assert (Eab : impact_rank (ar_impact a) = impact_rank (ar_impact b)) by lia.
  assert (Ebc : impact_rank (ar_impact b) = impact_rank (ar_impact c)) by lia.
  destruct (H2 Eab) as [S1 L1]. destruct (H4 Ebc) as [S2 L2].
  split; [auto|]. revert S1 L1 S2 L2.
  destruct (ar_isSystemic a), (ar_isSystemic b), (ar_isSystemic c); intros S1 L1 S2 L2 Es;
    try discriminate;
    try (specialize (S2 eq_refl); discriminate);
    try (specialize (S1 eq_refl); discriminate);
    specialize (L1 eq_refl); specialize (L2 eq_refl); lia.
Qed.

(** X3: the aggregated rules come out ordered: by impact (critical,
    serious, moderate, minor, then unknown), within one impact systemic
    rules first, and among rules equal on both by decreasing number of
    occurrences; every earlier rule is ordered before every later one. *)
Theorem aggregate_sorted (sc : string -> string) (raw : list page_result) :
  StronglySorted agg_order (ao_rules (aggregateRules sc raw)).
Proof.
  apply Sorted_StronglySorted; [exact agg_order_trans|].
  unfold aggregateRules. destruct (collect sc raw) as [m cnt]. cbv zeta. cbn [ao_rules].
  apply (Sorted_map (fun a b => agg_cmp a b <= 0)); [apply agg_cmp_order|].
  apply sort_by_sorted, agg_cmp_anti.
Qed.

(** Witness of X4: the rule aggregated from [sample_raw]. *)
Lemma aggregate_rule_bounds_witness :
  exists r, In r (ao_rules (aggregateRules keep_html sample_raw)) /\
    (1 <= ar_pagesAffected r <= length sample_raw)%nat /\ 0 <= ar_density r <= 100.
Proof.
  assert (H : In (nth 0 (ao_rules (aggregateRules keep_html sample_raw)) dummy_rule)
                 (ao_rules (aggregateRules keep_html sample_raw)))
    by (vm_compute; left; reflexivity).
  eexists. split; [exact H|]. apply (aggregate_rule_bounds keep_html sample_raw _ H).
Defined.

(** Witness of X6: the rule aggregated from [sample_raw]. *)
Lemma aggregate_occurrence_pages_witness :
  exists r, In r (ao_rules (aggregateRules keep_html sample_raw)) /\
    (forall o, In o (ar_occurrences r) -> In (o_page o) (map p_url sample_raw)) /\
    (occ_unique_pages r <= ar_pagesAffected r)%nat.
Proof.
  assert (H : In (nth 0 (ao_rules (aggregateRules keep_html sample_raw)) dummy_rule)
                 (ao_rules (aggregateRules keep_html sample_raw)))
    by (vm_compute; left; reflexivity).
  eexists. split; [exact H|]. apply (aggregate_occurrence_pages keep_html sample_raw _ H).
Defined.

(* ----------------------------------------------------------------- *)
(** ** The priority block of [process-results] *)

Lemma priorityRules_eq (rules : list out_rule) :
  priorityRules rules = firstn 5 (sort_by priority_cmp (map score_rule rules)).
Proof. destruct rules; reflexivity. Qed.

Lemma priority_cmp_anti (a b : scored) : priority_cmp b a = - priority_cmp a b.
Proof. unfold priority_cmp. destruct (s_priorityScore a), (s_priorityScore b); lia. Qed.

#[local] Instance score_ge_trans : Transitive score_ge.
Proof.
  intros a b c [x [y [Ha [Hb H1]]]] [y' [z [Hb' [Hc H2]]]].
  rewrite Hb in Hb'. injection Hb' as <-. exists x, z. split; [exact Ha|]. split; [exact Hc|lia].
Qed.

Lemma fold_set_add_occ (os : list occ) (acc : list string) :
  NoDup acc ->
  NoDup (fold_left (fun acc o => set_add (o_page o) acc) os acc) /\
  (forall u, In u (fold_left (fun acc o => set_add (o_page o) acc) os acc) <->
             In u acc \/ In u (map o_page os)).
Proof.
  revert acc. induction os as [|o os IH]; intros acc Hacc; cbn [fold_left map].
  - split; [exact Hacc|]. intros u. simpl. tauto.
  - destruct (set_add_spec (o_page o) acc Hacc) as [Hn Hs]. destruct (IH _ Hn) as [Hn' Hs'].
    split; [exact Hn'|]. intros u. rewrite Hs', Hs. simpl. intuition congruence.
Qed.

Lemma priority_pages_fold (S : list string) (pr : list scored) (acc : list string) :
  NoDup acc -> (forall u, In u acc -> In u S) ->
  (forall s o, In s pr -> In o (ar_occurrences (s_rule s)) -> In (o_page o) S) ->
  NoDup (fold_left (fun acc s => fold_left (fun acc o => set_add (o_page o) acc)
                                   (ar_occurrences (s_rule s)) acc) pr acc) /\
  (forall u, In u (fold_left (fun acc s => fold_left (fun acc o => set_add (o_page o) acc)
                                   (ar_occurrences (s_rule s)) acc) pr acc) -> In u S).
Proof.
  revert acc. induction pr as [|s pr IH]; intros acc Hn Hs Hpr; cbn [fold_left]; [auto|].
  destruct (fold_set_add_occ (ar_occurrences (s_rule s)) acc Hn) as [Hn' Hs'].
  apply IH; [exact Hn'| |].
  - intros u Hu. apply Hs' in Hu as [Hu|Hu]; [apply Hs, Hu|].
    apply in_map_iff in Hu as [o [<- Ho]]. apply (Hpr s); [left; reflexivity|exact Ho].
  - intros s' o Hs1 Ho. apply (Hpr s'); [right; exact Hs1|exact Ho].
Qed.

Lemma priority_pages_within (S : list string) (pr : list scored) :
  (forall s o, In s pr -> In o (ar_occurrences (s_rule s)) -> In (o_page o) S) ->
  NoDup (priority_pages pr) /\ (forall u, In u (priority_pages pr) -> In u S).
Proof.
  intros Hpr. apply priority_pages_fold; [constructor|intros u []|exact Hpr].
Qed.

Lemma priority_occurrences_le (rules : list out_rule) :
  (priority_occurrences (priorityRules rules) <= total_occurrences rules)%nat.
Proof.
  unfold priority_occurrences, total_occurrences. rewrite priorityRules_eq.
  eapply Nat.le_trans; [apply sum_list_with_firstn|].
  rewrite (sum_list_with_perm _ _ _ (sort_by_perm priority_cmp _)), sum_list_with_map.
  apply Nat.le_refl.
Qed.

Lemma ao_rule_occ_pages (sc : string -> string) (raw : list page_result) (r : out_rule) :
  In r (ao_rules (aggregateRules sc raw)) ->
  forall o, In o (ar_occurrences r) -> In (o_page o) (map p_url raw).
Proof.
  intros Hr o Ho. destruct (ao_rules_from sc raw r Hr) as [e [He ->]].
  destruct (collect_ok sc raw) as [[_ Hent] _].
  destruct (Hent e He) as [_ [_ [Hsub Hocc]]]. apply Hsub, Hocc, Ho.
Qed.

(** X7: the priority list holds [min 5 n] of the [n] rules: the first five
    of a reordering of all scored rules, none added or repeated. *)
Theorem priority_selection (rules : list out_rule) :
  length (priorityRules rules) = Nat.min 5 (length rules) /\
  exists l, Permutation l (map score_rule rules) /\ priorityRules rules = firstn 5 l.
Proof.
  rewrite priorityRules_eq. split.
  - rewrite length_firstn, length_sort_by, length_map. reflexivity.
  - eexists. split; [apply sort_by_perm|reflexivity].
Qed.

(** X8: when every rule has one of the four known impacts, the scored
    rules are ordered by decreasing priority score, and the five kept
    score at least as high as every rule left out. *)
Theorem priority_order (rules : list out_rule) :
  (forall r, In r rules -> is_Some (priority_weight (ar_impact r))) ->
  exists l, Permutation l (map score_rule rules) /\ priorityRules rules = firstn 5 l /\
    StronglySorted score_ge l /\
    (forall a b, In a (priorityRules rules) -> In b (skipn 5 l) -> score_ge a b).
Proof.
  intros Hw. set (l := sort_by priority_cmp (map score_rule rules)).
  assert (Hnum : forall a, In a l -> exists x, s_priorityScore a = JNum x).
  { intros a Ha. apply (Permutation_in _ (sort_by_perm _ _)) in Ha.
    apply in_map_iff in Ha as [r [<- Hr]]. destruct (Hw r Hr) as [w Hwr].
    exists (w + Z.of_nat (occ_unique_pages r)). cbn [score_rule s_priorityScore].
    unfold priorityScore. rewrite Hwr. reflexivity. }
  assert (Hs : StronglySorted score_ge l).
  { apply Sorted_StronglySorted; [exact score_ge_trans|].
    apply (Sorted_weaken_in (fun a b => priority_cmp a b <= 0)).
    - intros a b Ha Hb Hab. destruct (Hnum a Ha) as [x Hx], (Hnum b Hb) as [y Hy].
      exists x, y. split; [exact Hx|]. split; [exact Hy|].
      unfold priority_cmp in Hab. rewrite Hx, Hy in Hab. lia.
    - apply sort_by_sorted, priority_cmp_anti. }
  exists l. split; [apply sort_by_perm|]. split; [apply priorityRules_eq|]. split; [exact Hs|].
  intros a b Ha Hb. rewrite priorityRules_eq in Ha. exact (StronglySorted_split _ 5 l Hs a b Ha Hb).
Qed.

(** Witness of X8: three rules with known impacts. *)
Lemma priority_order_witness :
  (forall r, In r sample_rules -> is_Some (priority_weight (ar_impact r))) /\
  exists l, Permutation l (map score_rule sample_rules) /\ priorityRules sample_rules = firstn 5 l /\
    StronglySorted score_ge l /\
    (forall a b, In a (priorityRules sample_rules) -> In b (skipn 5 l) -> score_ge a b).
Proof.
  assert (H : forall r, In r sample_rules -> is_Some (priority_weight (ar_impact r))).
  { intros r Hr. destruct Hr as [<-|[<-|[<-|[]]]]; eexists; reflexivity. }
  split; [exact H|]. apply (priority_order sample_rules H).
Defined.

(** X9: in the part_008 pipeline both percentages of the priority summary
    are numbers between 0 and 100. *)
Theorem run_summary_008_bounded (sc : string -> string) (raw : list page_result) :
  exists v p, run_summary_008 sc raw = mkPrioritySummary (JNum v) (JNum p) /\
    0 <= v <= 100 /\ 0 <= p <= 100.
Proof.
  unfold run_summary_008, prioritySummary_008. cbv zeta.
  eexists _, _. split; [reflexivity|]. split.
  - destruct (0 <? total_occurrences (ao_rules (aggregateRules sc raw)))%nat eqn:E; [|lia].
    apply round_pct_bounds; [apply Nat.ltb_lt; exact E|apply priority_occurrences_le].
  - destruct (0 <? length raw)%nat eqn:E; [|lia]. apply Nat.ltb_lt in E.
    apply round_pct_bounds; [exact E|].
    destruct (priority_pages_within (map p_url raw) (priorityRules (ao_rules (aggregateRules sc raw))))
      as [Hnd Hsub].
    + intros s o Hs Ho. rewrite priorityRules_eq in Hs.
      apply In_firstn_In, (Permutation_in _ (sort_by_perm _ _)), in_map_iff in Hs as [r [<- Hr]].
      cbn [score_rule s_rule ar_occurrences] in Ho. exact (ao_rule_occ_pages sc raw r Hr o Ho).
    + rewrite <- (length_map p_url raw).
      apply NoDup_incl_length; [apply NoDup_ListNoDup, Hnd|exact Hsub].
Qed.

(* ----------------------------------------------------------------- *)
(** ** getHistoryData *)

Lemma history_weight_range (i : option string) : (1 <= history_weight i <= 10)%nat.
Proof.
  unfold history_weight. destruct i as [s|]; [|lia].
  repeat match goal with |- context [match ?x with _ => _ end] => destruct x end; lia.
Qed.

Lemma sum_list_with_between {A} (f g : A -> nat) (l : list A) :
  (forall x, f x <= g x <= 10 * f x)%nat ->
  (sum_list_with f l <= sum_list_with g l <= 10 * sum_list_with f l)%nat.
Proof.
  intros H. induction l as [|x l IH]; simpl; [lia|]. specialize (H x). lia.
Qed.

(** X10: the penalty of a history entry lies between its violation count
    and ten times that count (weights 1, 2, 5 and 10). *)
Theorem history_penalty_bounds (data : hist_data) :
  (violationCount (history_totals_of data) <= totalPenalty (history_totals_of data) <=
   10 * violationCount (history_totals_of data))%nat.
Proof.
  destruct data as [pages|[rules|] pa pc urls]; cbn [history_totals_of].
  - rewrite fold_hist_pages. cbn [violationCount totalPenalty].
    assert (Hv : forall vs : list hist_violation,
      (sum_list_with (fun v => length (default [] (hv_nodes v))) vs <=
       sum_list_with (fun v => length (default [] (hv_nodes v)) * history_weight (hv_impact v)) vs <=
       10 * sum_list_with (fun v => length (default [] (hv_nodes v))) vs)%nat).
    { intros vs. apply sum_list_with_between. intros v.
      pose proof (history_weight_range (hv_impact v)). nia. }
    assert (H := sum_list_with_between _ _ pages (fun page => Hv (default [] (hp_violations page)))).
    lia.
  - rewrite (fold_hist_step (fun r => length (default [] (hr_occurrences r)))
                            (fun r => history_weight (hr_impact r))).
    cbn [violationCount totalPenalty].
    assert (H : (sum_list_with (fun r => length (default [] (hr_occurrences r))) rules <=
       sum_list_with (fun r => length (default [] (hr_occurrences r)) * history_weight (hr_impact r)) rules <=
       10 * sum_list_with (fun r => length (default [] (hr_occurrences r))) rules)%nat).
    { apply sum_list_with_between. intros r.
      pose proof (history_weight_range (hr_impact r)). nia. }
    lia.
  - cbn. lia.
Qed.

Lemma hist_cmp_anti (a b : hist_entry) : hist_cmp b a = - hist_cmp a b.
Proof. unfold hist_cmp. destruct (he_timestamp a), (he_timestamp b); lia. Qed.

#[local] Instance ts_le_trans : Transitive ts_le.
Proof.
  intros a b c [x [y [Ha [Hb H1]]]] [y' [z [Hb' [Hc H2]]]].
  rewrite Hb in Hb'. injection Hb' as <-. exists x, z. split; [exact Ha|]. split; [exact Hc|lia].
Qed.

Lemma filter_present_In (entries : list (option hist_entry)) (e : hist_entry) :
  In e (filter_present entries) <-> In (Some e) entries.
Proof.
  unfold filter_present. rewrite in_flat_map. split.
  - intros [[e'|] [Hin He]]; [|destruct He]. destruct He as [<-|[]]. exact Hin.
  - intros Hin. exists (Some e). split; [exact Hin|left; reflexivity].
Qed.

(** X11: [getHistoryData] keeps at most the ten latest readable entries:
    when every readable entry has a valid timestamp, the result is the
    tail of the readable entries sorted by increasing timestamp, of length
    [min 10 n], and every dropped entry is no later than every kept one. *)
Theorem select_history_latest (entries : list (option hist_entry)) :
  (forall e, In (Some e) entries -> is_Some (he_timestamp e)) ->
  length (select_history entries) = Nat.min HISTORY_LIMIT (length (filter_present entries)) /\
  exists sorted, Permutation sorted (filter_present entries) /\ StronglySorted ts_le sorted /\
    select_history entries = skipn (length sorted - HISTORY_LIMIT) sorted /\
    (forall a b, In a (firstn (length sorted - HISTORY_LIMIT) sorted) ->
                 In b (select_history entries) -> ts_le a b).
Proof.
  intros Hts. unfold select_history. cbv zeta.
  set (sorted := sort_by hist_cmp (filter_present entries)).
  assert (Hlen : length sorted = length (filter_present entries)) by apply length_sort_by.
  assert (Hs : StronglySorted ts_le sorted).
  { apply Sorted_StronglySorted; [exact ts_le_trans|].
    apply (Sorted_weaken_in (fun a b => hist_cmp a b <= 0)).
    - intros a b Ha Hb Hab.
      apply (Permutation_in _ (sort_by_perm _ _)), filter_present_In in Ha, Hb.
      destruct (Hts a Ha) as [x Hx], (Hts b Hb) as [y Hy].
      exists x, y. split; [exact Hx|]. split; [exact Hy|].
      unfold hist_cmp in Hab. rewrite Hx, Hy in Hab. lia.
    - apply sort_by_sorted, hist_cmp_anti. }
  split.
  - rewrite length_skipn, Hlen. unfold HISTORY_LIMIT. lia.
  - exists sorted. split; [apply sort_by_perm|]. split; [exact Hs|]. split; [reflexivity|].
    intros a b Ha Hb. exact (StronglySorted_split _ _ sorted Hs a b Ha Hb).
Qed.

(** Witness of X11: three readable files and a corrupted one. *)
Lemma select_history_latest_witness :
  (forall e, In (Some e) sample_history -> is_Some (he_timestamp e)) /\
  length (select_history sample_history) = Nat.min HISTORY_LIMIT (length (filter_present sample_history)) /\
  exists sorted, Permutation sorted (filter_present sample_history) /\ StronglySorted ts_le sorted /\
    select_history sample_history = skipn (length sorted - HISTORY_LIMIT) sorted /\
    (forall a b, In a (firstn (length sorted - HISTORY_LIMIT) sorted) ->
                 In b (select_history sample_history) -> ts_le a b).
Proof.
  assert (H : forall e, In (Some e) sample_history -> is_Some (he_timestamp e)).
  { intros e He. destruct He as [He|[He|[He|[He|[]]]]]; try discriminate;
      injection He as <-; eexists; reflexivity. }
  split; [exact H|]. apply (select_history_latest sample_history H).
Defined.

(* ----------------------------------------------------------------- *)
(** ** escapeHtml, stripChildren and the site slug *)

Lemma str_app_assoc (a b c : string) : ((a ++ b) ++ c)%string = (a ++ (b ++ c))%string.
Proof.
  induction a as [|x a IH]; [reflexivity|].
  change (String x a ++ b)%string with (String x (a ++ b)%string).
  change (String x (a ++ b) ++ c)%string with (String x ((a ++ b) ++ c)%string).
  rewrite IH. reflexivity.
Qed.

Lemma str_app_cons (c : ascii) (s x : string) : (String c s ++ x)%string = String c (s ++ x)%string.
Proof. reflexivity. Qed.

Lemma str_app_nil_l (x : string) : (EmptyString ++ x)%string = x.
Proof. reflexivity. Qed.

Lemma replace_all_app (c : ascii) (r a b : string) :
  replace_all c r (a ++ b) = (replace_all c r a ++ replace_all c r b)%string.
Proof.
  induction a as [|x a IH]; [reflexivity|].
  change (String x a ++ b)%string with (String x (a ++ b)%string). cbn [replace_all].
  destruct (Ascii.eqb x c); rewrite IH; [apply eq_sym, str_app_assoc|reflexivity].
Qed.

Lemma escapeHtml_app (a b : string) :
  escapeHtml (Some (a ++ b)%string) = (escapeHtml (Some a) ++ escapeHtml (Some b))%string.
Proof. unfold escapeHtml. rewrite !replace_all_app. reflexivity. Qed.

Lemma escapeHtml_char (x : ascii) : escapeHtml (Some (String x EmptyString)) = esc_char x.
Proof.
  unfold esc_char.
  destruct (Ascii.eqb_spec x "&") as [->|N1]; [reflexivity|].
  destruct (Ascii.eqb_spec x "<") as [->|N2]; [reflexivity|].
  destruct (Ascii.eqb_spec x ">") as [->|N3]; [reflexivity|].
  destruct (Ascii.eqb_spec x quote_char) as [->|N4]; [reflexivity|].
  destruct (Ascii.eqb_spec x apos_char) as [->|N5]; [reflexivity|].
  apply Ascii.eqb_neq in N1, N2, N3, N4, N5.
  unfold escapeHtml. cbn [replace_all]. rewrite N1. cbn [replace_all]. rewrite N2.
  cbn [replace_all]. rewrite N3. cbn [replace_all]. rewrite N4. cbn [replace_all]. rewrite N5.
  reflexivity.
Qed.

Lemma escapeHtml_esc_all (s : string) : escapeHtml (Some s) = esc_all s.
Proof.
  induction s as [|x s IH]; [reflexivity|].
  change (String x s) with (String x EmptyString ++ s)%string.
  rewrite escapeHtml_app, escapeHtml_char, IH. reflexivity.
Qed.

Lemma all_chars_app (p : ascii -> bool) (a b : string) :
  all_chars p (a ++ b) = all_chars p a && all_chars p b.
Proof.
  induction a as [|x a IH]; [reflexivity|].
  change (String x a ++ b)%string with (String x (a ++ b)%string). cbn [all_chars].
  rewrite IH. apply andb_assoc.
Qed.

Lemma esc_char_cases (x : ascii) :
  (esc_char x = String x EmptyString /\ x <> "&"%char /\ x <> "<"%char /\ x <> ">"%char /\
   x <> quote_char /\ x <> apos_char) \/
  (x = "&"%char /\ esc_char x = "&amp;"%string) \/ (x = "<"%char /\ esc_char x = "&lt;"%string) \/
  (x = ">"%char /\ esc_char x = "&gt;"%string) \/ (x = quote_char /\ esc_char x = "&quot;"%string) \/
  (x = apos_char /\ esc_char x = "&#39;"%string).
Proof.
  unfold esc_char.
  destruct (Ascii.eqb_spec x "&") as [->|N1]; [right; left; split; reflexivity|].
  destruct (Ascii.eqb_spec x "<") as [->|N2]; [right; right; left; split; reflexivity|].
  destruct (Ascii.eqb_spec x ">") as [->|N3]; [do 3 right; left; split; reflexivity|].
  destruct (Ascii.eqb_spec x quote_char) as [->|N4]; [do 4 right; left; split; reflexivity|].
  destruct (Ascii.eqb_spec x apos_char) as [->|N5]; [do 5 right; split; reflexivity|].
  left. repeat split; assumption.
Qed.

Lemma esc_char_app_inj (x y : ascii) (a b : string) :
  (esc_char x ++ a)%string = (esc_char y ++ b)%string -> x = y /\ a = b.
Proof.
  destruct (esc_char_cases x) as [[Ex [X1 [X2 [X3 [X4 X5]]]]]|[[-> Ex]|[[-> Ex]|[[-> Ex]|[[-> Ex]|[-> Ex]]]]]];
  destruct (esc_char_cases y) as [[Ey [Y1 [Y2 [Y3 [Y4 Y5]]]]]|[[-> Ey]|[[-> Ey]|[[-> Ey]|[[-> Ey]|[-> Ey]]]]]];
  rewrite Ex; rewrite ?Ey; intros H; rewrite ?str_app_cons, ?str_app_nil_l in H; try discriminate; injection H; intros; subst;
  try (split; reflexivity); congruence.
Qed.

(** X12: [escapeHtml] never outputs ['<'], ['>'], a double or a single
    quote, whatever its argument. *)
Theorem escapeHtml_safe (str : option string) :
  all_chars (fun c => negb (Ascii.eqb c "<" || Ascii.eqb c ">" ||
                            Ascii.eqb c quote_char || Ascii.eqb c apos_char))
            (escapeHtml str) = true.
Proof.
  destruct str as [s|]; [|reflexivity].
  rewrite escapeHtml_esc_all. induction s as [|x s IH]; [reflexivity|].
  cbn [esc_all]. rewrite all_chars_app, IH, andb_true_r.
  destruct (esc_char_cases x) as [[-> [_ [N2 [N3 [N4 N5]]]]]|[[_ ->]|[[_ ->]|[[_ ->]|[[_ ->]|[_ ->]]]]]];
    [|reflexivity..].
  cbn [all_chars]. apply Ascii.eqb_neq in N2, N3, N4, N5. rewrite N2, N3, N4, N5. reflexivity.
Qed.

(** X13: [escapeHtml] loses nothing: two strings with the same escaped
    form are equal. *)
Theorem escapeHtml_injective (s1 s2 : string) :
  escapeHtml (Some s1) = escapeHtml (Some s2) <-> s1 = s2.
Proof.
  split; [|intros ->; reflexivity].
  rewrite !escapeHtml_esc_all. revert s2.
  induction s1 as [|x s1 IH]; intros [|y s2]; cbn [esc_all]; intros H; [reflexivity| | |].
  - destruct (esc_char_cases y) as [[Ey _]|[[_ Ey]|[[_ Ey]|[[_ Ey]|[[_ Ey]|[_ Ey]]]]]];
      rewrite Ey in H; discriminate.
  - destruct (esc_char_cases x) as [[Ex _]|[[_ Ex]|[[_ Ex]|[[_ Ex]|[[_ Ex]|[_ Ex]]]]]];
      rewrite Ex in H; discriminate.
  - apply esc_char_app_inj in H as [-> H]. f_equal. apply IH, H.
Qed.

Lemma scan_tag_spec (s t : string) :
  scan_tag s = Some t -> (exists u, s = (t ++ u)%string) /\ scan_tag t = Some t.
Proof.
  revert t. induction s as [|c s IH]; intros t H; cbn [scan_tag] in H; [discriminate|].
  destruct (Ascii.eqb c ">") eqn:E.
  - injection H as <-. split; [exists s; reflexivity|]. cbn [scan_tag]. rewrite E. reflexivity.
  - destruct (scan_tag s) as [t'|] eqn:Es; cbn [option_map] in H; [|discriminate].
    injection H as <-. destruct (IH t' eq_refl) as [[u ->] Ht'].
    split; [exists u; reflexivity|]. cbn [scan_tag]. rewrite E, Ht'. reflexivity.
Qed.

Lemma match_open_tag_spec (h m : string) :
  match_open_tag h = Some m -> (exists u, h = (m ++ u)%string) /\ match_open_tag m = Some m.
Proof.
  unfold match_open_tag. destruct h as [|c [|d rest]]; try discriminate.
  destruct (Ascii.eqb c "<" && negb (Ascii.eqb d ">")) eqn:E; [|discriminate].
  destruct (scan_tag rest) as [t|] eqn:Et; cbn [option_map]; [|discriminate].
  intros H. injection H as <-. destruct (scan_tag_spec rest t Et) as [[u ->] Ht].
  split; [exists u; reflexivity|]. rewrite E, Ht. reflexivity.
Qed.

Lemma prefix_app (a u : string) : String.prefix a (a ++ u) = true.
Proof.
  induction a as [|c a IH]; [destruct u; reflexivity|].
  rewrite str_app_cons. cbn [String.prefix]. destruct (ascii_dec c c); [exact IH|contradiction].
Qed.

(** X14: [stripChildren] only shortens: its result is a prefix of the
    HTML it is given, and applying it a second time changes nothing. *)
Theorem stripChildren_prefix_idem (h : string) :
  String.prefix (stripChildren (Some h)) h = true /\
  stripChildren (Some (stripChildren (Some h))) = stripChildren (Some h).
Proof.
  unfold stripChildren. destruct h as [|c h]; [split; reflexivity|].
  destruct (match_open_tag (String c h)) as [m|] eqn:E.
  - destruct (match_open_tag_spec _ _ E) as [[u Hu] Hm]. split.
    + rewrite Hu. apply prefix_app.
    + destruct m as [|c' m']; [discriminate|]. rewrite Hm. reflexivity.
  - split; [rewrite <- (str_app_nil (String c h)) at 2; apply prefix_app|].
    rewrite E. reflexivity.
Qed.

Lemma prefix_all_chars (p : ascii -> bool) (a s : string) :
  String.prefix a s = true -> all_chars p s = true -> all_chars p a = true.
Proof.
  revert s. induction a as [|c a IH]; intros s Hp Hs; [reflexivity|].
  destruct s as [|d s]; [discriminate|]. cbn in Hp.
  destruct (ascii_dec c d) as [->|]; [|discriminate].
  cbn [all_chars] in Hs |- *. apply andb_prop in Hs as [Hd Hs].
  rewrite Hd. apply (IH s Hp Hs).
Qed.

Lemma slug_chars_ok (s : string) : all_chars slug_char (slug_chars s) = true.
Proof.
  induction s as [|c s IH]; [reflexivity|]. cbn [slug_chars all_chars]. rewrite IH, andb_true_r.
  unfold slug_char. destruct (is_word_char c || Ascii.eqb c "-") eqn:E; [exact E|reflexivity].
Qed.

Lemma slug_chars_keep (s : string) : all_chars slug_char s = true -> slug_chars s = s.
Proof.
  induction s as [|c s IH]; [reflexivity|]. cbn [all_chars slug_chars].
  intros H. apply andb_prop in H as [Hc Hs]. unfold slug_char in Hc. rewrite Hc, IH by exact Hs.
  reflexivity.
Qed.

Lemma strip_trailing_slash_keep (s : string) :
  all_chars slug_char s = true -> strip_trailing_slash s = s.
Proof.
  induction s as [|c s IH]; [reflexivity|]. intros H.
  cbn [all_chars] in H. apply andb_prop in H as [Hc Hs].
  destruct s as [|d s].
  - cbn. destruct (Ascii.eqb_spec c "/") as [->|]; [discriminate|reflexivity].
  - change (strip_trailing_slash (String c (String d s)))
      with (String c (strip_trailing_slash (String d s))).
    rewrite IH by exact Hs. reflexivity.
Qed.

Lemma drop_scheme_keep (s : string) : all_chars slug_char s = true -> drop_scheme s = s.
Proof.
  intros H. unfold drop_scheme.
  destruct (String.prefix "https://" s) eqn:E1.
  { apply (prefix_all_chars slug_char) in E1; [discriminate|exact H]. }
  destruct (String.prefix "http://" s) eqn:E2.
  { apply (prefix_all_chars slug_char) in E2; [discriminate|exact H]. }
  reflexivity.
Qed.

(** X15: the site slug consists of letters, digits, ['_'] and ['-']
    only, and computing the slug of a slug gives it back unchanged. *)
Theorem siteSlug_chars_idem (siteUrl : string) :
  all_chars slug_char (siteSlug siteUrl) = true /\ siteSlug (siteSlug siteUrl) = siteSlug siteUrl.
Proof.
  assert (H := slug_chars_ok (strip_trailing_slash (drop_scheme siteUrl))).
  change (slug_chars (strip_trailing_slash (drop_scheme siteUrl))) with (siteSlug siteUrl) in H.
  split; [exact H|]. unfold siteSlug at 1.
  rewrite (drop_scheme_keep _ H), (strip_trailing_slash_keep _ H), (slug_chars_keep _ H).
  reflexivity.
Qed.

(* ----------------------------------------------------------------- *)
(** ** diffRules: failure, totals and per-rule counts *)

Lemma diff_loop_none prevAudit ix h ls tot :
  diff_loop prevAudit ix h ls tot = None <-> exists l, In l ls /\ h !! l = None.
Proof.
  revert h tot. induction ls as [|l ls IH]; intros h tot; cbn [diff_loop].
  - split; [discriminate|]. intros [l [[] _]].
  - destruct (h !! l) as [r|] eqn:Hr.
    + destruct (annotate_rule prevAudit ix r) as [r' c]. rewrite IH. split.
      * intros [l' [Hl' Hn]]. destruct (decide (l' = l)) as [->|Hne].
        { rewrite lookup_insert_eq in Hn. discriminate. }
        rewrite lookup_insert_ne in Hn by congruence.
        exists l'. split; [right; exact Hl'|exact Hn].
      * intros [l' [[<-|Hl'] Hn]]; [congruence|]. exists l'. split; [exact Hl'|].
        rewrite lookup_insert_ne; [exact Hn|]. intros ->. congruence.
    + split; [intros _; exists l; split; [left; reflexivity|exact Hr]|reflexivity].
Qed.

Lemma annotate_snd_eq prevAudit ix (r1 r2 : rule) :
  r_id r1 = r_id r2 -> rule_keys r1 = rule_keys r2 ->
  snd (annotate_rule prevAudit ix r1) = snd (annotate_rule prevAudit ix r2).
Proof. intros E1 E2. unfold annotate_rule. cbn [snd]. rewrite E1, E2. reflexivity. Qed.

Lemma annotate_snd_stable prevAudit ix r :
  snd (annotate_rule prevAudit ix (fst (annotate_rule prevAudit ix r))) = snd (annotate_rule prevAudit ix r).
Proof. apply annotate_snd_eq; [apply annotate_id|apply annotate_keys]. Qed.

Lemma annotate_diff_counts prevAudit ix r :
  (diff_field d_new (Some (fst (annotate_rule prevAudit ix r))),
   diff_field d_resolved (Some (fst (annotate_rule prevAudit ix r))),
   diff_field d_unchanged (Some (fst (annotate_rule prevAudit ix r)))) = snd (annotate_rule prevAudit ix r).
Proof. reflexivity. Qed.

Lemma diff_loop_out prevAudit ix h ls tot h' tot' :
  diff_loop prevAudit ix h ls tot = Some (h', tot') -> forall l, ~ In l ls -> h' !! l = h !! l.
Proof.
  revert h tot. induction ls as [|l0 ls IH]; intros h tot; cbn [diff_loop].
  - intros [= -> ->] l _. reflexivity.
  - destruct (h !! l0) as [r|] eqn:Hr; [|discriminate].
    destruct (annotate_rule prevAudit ix r) as [r' c]. intros Hrun l Hl.
    rewrite (IH _ _ Hrun l) by (intros H; apply Hl; right; exact H).
    rewrite lookup_insert_ne by (intros ->; apply Hl; left; reflexivity). reflexivity.
Qed.

Lemma diff_loop_fields prevAudit ix h ls tot h' tot' :
  diff_loop prevAudit ix h ls tot = Some (h', tot') ->
  forall l, In l ls -> exists r, h !! l = Some r /\
    (diff_field d_new (h' !! l), diff_field d_resolved (h' !! l), diff_field d_unchanged (h' !! l)) =
    snd (annotate_rule prevAudit ix r).
Proof.
  revert h tot. induction ls as [|l0 ls IH]; intros h tot; cbn [diff_loop]; [intros _ _ []|].
  destruct (h !! l0) as [r0|] eqn:Hr0; [|discriminate].
  pose proof (annotate_snd_stable prevAudit ix r0) as Hst.
  pose proof (annotate_diff_counts prevAudit ix r0) as Hdc.
  destruct (annotate_rule prevAudit ix r0) as [r0' c0] eqn:Ea. cbn [fst snd] in Hst, Hdc.
  intros Hrun l [<-|Hl].
  - exists r0. split; [exact Hr0|]. rewrite Ea. cbn [snd].
    destruct (in_dec Nat.eq_dec l0 ls) as [Hin|Hnin].
    + destruct (IH _ _ Hrun l0 Hin) as [r1 [Hr1 Heq]].
      rewrite lookup_insert_eq in Hr1. injection Hr1 as <-. rewrite Heq. exact Hst.
    + rewrite (diff_loop_out _ _ _ _ _ _ _ Hrun l0 Hnin), lookup_insert_eq. exact Hdc.
  - destruct (IH _ _ Hrun l Hl) as [r1 [Hr1 Heq]]. destruct (decide (l = l0)) as [->|Hne].
    + rewrite lookup_insert_eq in Hr1. injection Hr1 as <-.
      exists r0. split; [exact Hr0|]. rewrite Heq, Ea. exact Hst.
    + rewrite lookup_insert_ne in Hr1 by congruence. exists r1. auto.
Qed.

Lemma diff_loop_totals prevAudit ix h ls tot h' tot' :
  diff_loop prevAudit ix h ls tot = Some (h', tot') ->
  newViolations tot' = (newViolations tot + sum_list_with (fun l => diff_field d_new (h' !! l)) ls)%nat /\
  resolvedViolations tot' =
    (resolvedViolations tot + sum_list_with (fun l => diff_field d_resolved (h' !! l)) ls)%nat /\
  unchanged tot' = (unchanged tot + sum_list_with (fun l => diff_field d_unchanged (h' !! l)) ls)%nat.
Proof.
  revert h tot. induction ls as [|l0 ls IH]; intros h tot Hrun0.
  - cbn [diff_loop] in Hrun0. injection Hrun0 as -> ->. cbn [sum_list_with]. lia.
  - destruct (diff_loop_fields _ _ _ _ _ _ _ Hrun0 l0 (or_introl eq_refl)) as [r [Hr Hf]].
    cbn [diff_loop] in Hrun0. rewrite Hr in Hrun0.
    destruct (annotate_rule prevAudit ix r) as [r' [[n rs] u]]. cbn [snd] in Hf.
    injection Hf as E1 E2 E3.
    destruct (IH _ _ Hrun0) as [H1 [H2 H3]]. cbn [add_counts newViolations resolvedViolations unchanged] in H1, H2, H3.
    cbn [sum_list_with]. rewrite E1, E2, E3. lia.
Qed.

(** X17: the totals returned by [diffRules] are the sums, over the rules
    array, of the [diff.new], [diff.resolved] and [diff.unchanged] that
    the rule objects carry after the call. *)
Theorem diffRules_totals_sum (h : gmap loc rule) (ls : list loc)
    (friendlyNames : string -> option string) (prevAudit : option (list rule))
    (h' : gmap loc rule) (res : diff_result) :
  diffRules h ls friendlyNames prevAudit = Some (h', res) ->
  newViolations (res_diffTotals res) = sum_list_with (fun l => diff_field d_new (h' !! l)) ls /\
  resolvedViolations (res_diffTotals res) = sum_list_with (fun l => diff_field d_resolved (h' !! l)) ls /\
  unchanged (res_diffTotals res) = sum_list_with (fun l => diff_field d_unchanged (h' !! l)) ls.
Proof.
  unfold diffRules. destruct (diff_loop _ _ _ _ _) as [[h1 tot]|] eqn:E; [|discriminate].
  intros H. injection H as <- <-. cbn [res_diffTotals].
  destruct (diff_loop_totals _ _ _ _ _ _ _ E) as [H1 [H2 H3]].
  cbn [newViolations resolvedViolations unchanged] in H1, H2, H3. auto.
Qed.

(** Witness of X17: two rule objects against a previous audit. *)
Lemma diffRules_totals_sum_witness :
  exists h' res,
    diffRules sample_heap [0%nat; 1%nat] (fun _ => None) (Some [sample_prev_rule]) = Some (h', res) /\
    newViolations (res_diffTotals res) = sum_list_with (fun l => diff_field d_new (h' !! l)) [0%nat; 1%nat] /\
    resolvedViolations (res_diffTotals res) =
      sum_list_with (fun l => diff_field d_resolved (h' !! l)) [0%nat; 1%nat] /\
    unchanged (res_diffTotals res) = sum_list_with (fun l => diff_field d_unchanged (h' !! l)) [0%nat; 1%nat].
Proof.
  destruct (diffRules sample_heap [0%nat; 1%nat] (fun _ => None) (Some [sample_prev_rule]))
    as [[h' res]|] eqn:E.
  - exists h', res. split; [reflexivity|].
    exact (diffRules_totals_sum _ _ _ _ _ _ E).
  - exfalso. vm_compute in E. discriminate.
Defined.

Lemma filter_partition_length {A} (f : A -> bool) (l : list A) :
  (length (List.filter (fun x => negb (f x)) l) + length (List.filter f l) = length l)%nat.
Proof. induction l as [|x l IH]; [reflexivity|]. simpl. destruct (f x); simpl; lia. Qed.

Lemma inter_length_sym (l1 l2 : list string) :
  List.NoDup l1 -> List.NoDup l2 ->
  length (List.filter (fun x => mem x l2) l1) = length (List.filter (fun x => mem x l1) l2).
Proof.
  intros H1 H2. apply Nat.le_antisymm; apply NoDup_incl_length.
  - apply List.NoDup_filter, H1.
  - intros x Hx. apply filter_In in Hx as [Hx1 Hx2]. apply filter_In.
    split; [apply mem_In, Hx2 | apply mem_In, Hx1].
  - apply List.NoDup_filter, H2.
  - intros x Hx. apply filter_In in Hx as [Hx1 Hx2]. apply filter_In.
    split; [apply mem_In, Hx2 | apply mem_In, Hx1].
Qed.

Lemma bool_decide_Some (prules : list rule) : bool_decide (is_Some (Some prules)) = true.
Proof. apply bool_decide_true, is_Some_Some. Qed.

Lemma annotate_partition (prules : list rule) (r : rule) :
  List.NoDup (map r_id prules) ->
  exists d, r_diff (fst (annotate_rule (Some prules) (build_index (Some prules)) r)) = Some d /\
    (d_new d + d_unchanged d = length (dedup (rule_keys r)))%nat /\
    (forall p, In p prules -> r_id p = r_id r ->
       (d_resolved d + d_unchanged d = length (dedup (rule_keys p)))%nat).
Proof.
  intros Hnd. unfold annotate_rule. cbn [fst r_diff]. rewrite bool_decide_Some.
  eexists. split; [reflexivity|]. cbn [d_new d_unchanged d_resolved]. split.
  - apply filter_partition_length.
  - intros p Hp Hid. rewrite <- Hid.
    change (build_index (Some prules)) with (fold_left index_prev_rule prules empty_index).
    destruct (fold_index_in prules empty_index p Hnd Hp) as [Hocc _]. rewrite Hocc. cbn [default id].
    rewrite (inter_length_sym (dedup (rule_keys r)) (dedup (rule_keys p)) (dedup_NoDup _) (dedup_NoDup _)).
    apply filter_partition_length.
Qed.

(** X18: against a previous audit with distinct rule ids, the counts of
    every rule object are a partition: [new + unchanged] is the number of
    its distinct occurrence keys, and [resolved + unchanged] the number of
    distinct keys of the previous rule with the same id. *)
Theorem diffRules_partition (h : gmap loc rule) (ls : list loc)
    (friendlyNames : string -> option string) (prules : list rule)
    (Hnd : List.NoDup (map r_id prules))
    (Hls : forall l, In l ls -> is_Some (h !! l)) :
  exists h' res, diffRules h ls friendlyNames (Some prules) = Some (h', res) /\
    forall l, In l ls -> exists r d, h' !! l = Some r /\ r_diff r = Some d /\
      (d_new d + d_unchanged d = length (dedup (rule_keys r)))%nat /\
      (forall p, In p prules -> r_id p = r_id r ->
         (d_resolved d + d_unchanged d = length (dedup (rule_keys p)))%nat).
Proof.
  set (Q := fun (_ : loc) x => exists d, r_diff x = Some d /\
      (d_new d + d_unchanged d = length (dedup (rule_keys x)))%nat /\
      (forall p, In p prules -> r_id p = r_id x ->
         (d_resolved d + d_unchanged d = length (dedup (rule_keys p)))%nat)).
  destruct (diff_loop_inv (Some prules) (build_index (Some prules)) (fun _ _ => True) Q (fun _ => True))
    with (ls := ls) (h := h) (tot := mkTotals 0 0 0) as [h' [tot' [Hrun [_ [Hin _]]]]].
  - intros l x _. split; [exact I|]. split; [|intros; exact I].
    destruct (annotate_partition prules x Hnd) as [d [Hd [H1 H2]]].
    exists d. rewrite annotate_keys, annotate_id. auto.
  - exact I.
  - intros l Hl. destruct (Hls l Hl) as [r Hr]. exists r. auto.
  - eexists h', _. unfold diffRules. rewrite Hrun. split; [reflexivity|].
    intros l Hl. destruct (Hin l Hl) as [r' [Hr' [_ [d Hd]]]]. exists r', d. split; [exact Hr'|exact Hd].
Qed.

(** Witness of X18: two rule objects against a previous audit. *)
Lemma diffRules_partition_witness :
  List.NoDup (map r_id [sample_prev_rule]) /\
  (forall l, In l [0%nat; 1%nat] -> is_Some (sample_heap !! l)) /\
  exists h' res, diffRules sample_heap [0%nat; 1%nat] (fun _ => None) (Some [sample_prev_rule]) = Some (h', res) /\
    forall l, In l [0%nat; 1%nat] -> exists r d, h' !! l = Some r /\ r_diff r = Some d /\
      (d_new d + d_unchanged d = length (dedup (rule_keys r)))%nat /\
      (forall p, In p [sample_prev_rule] -> r_id p = r_id r ->
         (d_resolved d + d_unchanged d = length (dedup (rule_keys p)))%nat).
Proof.
  assert (Hnd : List.NoDup (map r_id [sample_prev_rule])) by (constructor; [intros []|constructor]).
  assert (Hls : forall l, In l [0%nat; 1%nat] -> is_Some (sample_heap !! l))
    by (intros l [<-|[<-|[]]]; eexists; reflexivity).
  split; [exact Hnd|]. split; [exact Hls|].
  exact (diffRules_partition sample_heap [0%nat; 1%nat] (fun _ => None) [sample_prev_rule] Hnd Hls).
Defined.

Lemma annotate_new_rule (prules : list rule) (r : rule) :
  ~ In (r_id r) (map r_id prules) ->
  r_diff (fst (annotate_rule (Some prules) (build_index (Some prules)) r)) =
    Some (mkDiff (length (dedup (rule_keys r))) 0 0 []) /\
  r_isNewRule (fst (annotate_rule (Some prules) (build_index (Some prules)) r)) = Some true /\
  (forall o, In o (r_occurrences (fst (annotate_rule (Some prules) (build_index (Some prules)) r))) ->
     o_isNewOccurrence o = Some true /\ o_isNewPage o = Some false).
Proof.
  intros Hn.
  change (build_index (Some prules)) with (fold_left index_prev_rule prules empty_index).
  destruct (fold_index_other prules empty_index (r_id r) Hn) as [Hocc Hpg].
  cbn [prevOccurrencesByRule prevPagesByRule empty_index] in Hocc, Hpg.
  rewrite lookup_empty in Hocc, Hpg.
  assert (Hid : mem (r_id r) (prevRuleIds (fold_left index_prev_rule prules empty_index)) = false).
  { destruct (mem _ _) eqn:E; [|reflexivity]. apply mem_In, fold_index_ids in E.
    destruct E as [[]|E]. contradiction. }
  assert (Hd : r_diff (fst (annotate_rule (Some prules) (fold_left index_prev_rule prules empty_index) r)) =
                 Some (mkDiff (length (dedup (rule_keys r))) 0 0 [])).
  { unfold annotate_rule. cbn [fst r_diff]. rewrite bool_decide_Some, Hocc, Hpg. cbn [default id].
    rewrite filter_all by (intros; reflexivity). cbn [List.filter].
    rewrite filter_none by (intros; reflexivity). reflexivity. }
  split; [exact Hd|]. split.
  - unfold annotate_rule. cbn [fst r_isNewRule]. rewrite bool_decide_Some, Hid. reflexivity.
  - intros o Ho. rewrite annotate_occurrences in Ho. apply in_map_iff in Ho as [o0 [<- _]].
    rewrite bool_decide_Some, Hocc, Hd. split; reflexivity.
Qed.

(** X19: against a previous audit, a rule object whose id the previous
    audit does not have is marked [isNewRule = true]; all its distinct
    keys count as new and none as resolved or unchanged, [newPages] stays
    empty, and every occurrence gets [isNewOccurrence = true] and
    [isNewPage = false]. *)
Theorem diffRules_new_rule (h : gmap loc rule) (ls : list loc)
    (friendlyNames : string -> option string) (prules : list rule)
    (Hls : forall l, In l ls -> is_Some (h !! l)) :
  exists h' res, diffRules h ls friendlyNames (Some prules) = Some (h', res) /\
    forall l, In l ls -> exists r, h' !! l = Some r /\
      (~ In (r_id r) (map r_id prules) ->
         r_diff r = Some (mkDiff (length (dedup (rule_keys r))) 0 0 []) /\
         r_isNewRule r = Some true /\
         (forall o, In o (r_occurrences r) ->
            o_isNewOccurrence o = Some true /\ o_isNewPage o = Some false)).
Proof.
  set (Q := fun (_ : loc) x => ~ In (r_id x) (map r_id prules) ->
         r_diff x = Some (mkDiff (length (dedup (rule_keys x))) 0 0 []) /\
         r_isNewRule x = Some true /\
         (forall o, In o (r_occurrences x) ->
            o_isNewOccurrence o = Some true /\ o_isNewPage o = Some false)).
  destruct (diff_loop_inv (Some prules) (build_index (Some prules)) (fun _ _ => True) Q (fun _ => True))
    with (ls := ls) (h := h) (tot := mkTotals 0 0 0) as [h' [tot' [Hrun [_ [Hin _]]]]].
  - intros l x _. split; [exact I|]. split; [|intros; exact I].
    unfold Q. rewrite annotate_keys, annotate_id. apply annotate_new_rule.
  - exact I.
  - intros l Hl. destruct (Hls l Hl) as [r Hr]. exists r. auto.
  - eexists h', _. unfold diffRules. rewrite Hrun. split; [reflexivity|].
    intros l Hl. destruct (Hin l Hl) as [r' [Hr' [_ HQ]]]. exists r'. split; [exact Hr'|exact HQ].
Qed.

(** Witness of X19: [label] is new against [[sample_prev_rule]]. *)
Lemma diffRules_new_rule_witness :
  (forall l, In l [0%nat; 1%nat] -> is_Some (sample_heap !! l)) /\
  exists h' res, diffRules sample_heap [0%nat; 1%nat] (fun _ => None) (Some [sample_prev_rule]) = Some (h', res) /\
    forall l, In l [0%nat; 1%nat] -> exists r, h' !! l = Some r /\
      (~ In (r_id r) (map r_id [sample_prev_rule]) ->
         r_diff r = Some (mkDiff (length (dedup (rule_keys r))) 0 0 []) /\
         r_isNewRule r = Some true /\
         (forall o, In o (r_occurrences r) ->
            o_isNewOccurrence o = Some true /\ o_isNewPage o = Some false)).
Proof.
  assert (Hls : forall l, In l [0%nat; 1%nat] -> is_Some (sample_heap !! l))
    by (intros l [<-|[<-|[]]]; eexists; reflexivity).
  split; [exact Hls|].
  exact (diffRules_new_rule sample_heap [0%nat; 1%nat] (fun _ => None) [sample_prev_rule] Hls).
Defined.

(* ----------------------------------------------------------------- *)
(** ** getWcagLevel *)

Lemma list_max_is (l : list nat) (k : nat) :
  In k l -> (forall x, In x l -> (x <= k)%nat) -> list_max l = k.
Proof.
  intros Hk Hle. apply Nat.le_antisymm.
  - apply list_max_le, List.Forall_forall. exact Hle.
  - pose proof (proj1 (list_max_le l (list_max l)) (le_n _)) as H.
    rewrite List.Forall_forall in H. apply H, Hk.
Qed.

Lemma existsb_false {A} (f : A -> bool) (l : list A) :
  existsb f l = false -> forall x, In x l -> f x = false.
Proof.
  intros H x Hx. destruct (f x) eqn:E; [|reflexivity].
  assert (existsb f l = true) by (apply existsb_exists; exists x; auto). congruence.
Qed.

(** X20: the level [getWcagLevel] gives an array of tags is that of its
    highest-level tag: AAA if any AAA tag, else AA if any AA tag, else A if
    any A tag, else Best Practice. *)
Theorem getWcagLevel_max (ts : list string) :
  getWcagLevel (Some ts) = level_name (list_max (map tag_rank ts)).
Proof.
  unfold getWcagLevel.
  destruct (existsb (fun t => mem t ["wcag2aaa"; "wcag21aaa"; "wcag22aaa"]%string) ts) eqn:E3;
  [|pose proof (existsb_false _ _ E3) as N3];
  [|destruct (existsb (fun t => mem t ["wcag2aa"; "wcag21aa"; "wcag22aa"]%string) ts) eqn:E2;
    [|pose proof (existsb_false _ _ E2) as N2];
    [|destruct (existsb (fun t => mem t ["wcag2a"; "wcag21a"; "wcag22a"]%string) ts) eqn:E1;
      [|pose proof (existsb_false _ _ E1) as N1]]].
  - apply existsb_exists in E3 as [t [Ht Hm]].
    rewrite (list_max_is _ 3%nat); [reflexivity| |].
    + apply in_map_iff. exists t. split; [|exact Ht]. unfold tag_rank. rewrite Hm. reflexivity.
    + intros x Hx. apply in_map_iff in Hx as [t' [<- _]]. unfold tag_rank.
      repeat destruct (mem t' _); lia.
  - apply existsb_exists in E2 as [t [Ht Hm]].
    rewrite (list_max_is _ 2%nat); [reflexivity| |].
    + apply in_map_iff. exists t. split; [|exact Ht]. unfold tag_rank. rewrite (N3 t Ht), Hm. reflexivity.
    + intros x Hx. apply in_map_iff in Hx as [t' [<- Ht']]. unfold tag_rank. rewrite (N3 t' Ht').
      repeat destruct (mem t' _); lia.
  - apply existsb_exists in E1 as [t [Ht Hm]].
    rewrite (list_max_is _ 1%nat); [reflexivity| |].
    + apply in_map_iff. exists t. split; [|exact Ht]. unfold tag_rank.
      rewrite (N3 t Ht), (N2 t Ht), Hm. reflexivity.
    + intros x Hx. apply in_map_iff in Hx as [t' [<- Ht']]. unfold tag_rank.
      rewrite (N3 t' Ht'), (N2 t' Ht'). destruct (mem t' _); lia.
  - assert (H0 : list_max (map tag_rank ts) = 0%nat).
    { apply Nat.le_0_r, list_max_le, List.Forall_forall. intros x Hx.
      apply in_map_iff in Hx as [t' [<- Ht']]. unfold tag_rank.
      rewrite (N3 t' Ht'), (N2 t' Ht'), (N1 t' Ht'). reflexivity. }
    rewrite H0. reflexivity.
Qed.
